(** * HTML text extraction of the fetch-html route

    A shallow embedding of [src/app/api/fetch-html/route.ts]: the two text
    extraction pipelines [extractText] and [extractStructuredText], the
    helper [wordWrap], and the [POST] handler; and of the pure parts of
    the client component [src/components/html-fetcher.tsx].

    Conventions of the model.
    - A JavaScript string is a sequence of UTF-16 code units, [jsstring];
      [.length] counts code units.  A literal written in this file denotes
      the code units of its text.
    - [\s] and [trim] use the white space of ECMAScript.  The case
      mappings [toLowerCase] and [toUpperCase] are those of the platform:
      they are the two operations of the class [Unicode], of which only
      the behaviour on ASCII text is assumed.
    - The parsed document that [cheerio.load] returns is a forest of
      [node]s, the children of the root; the HTML parser itself is a
      library and is not modelled.
    - [Set<string>] is a [gset jsstring], element attributes are a
      [gmap jsstring jsstring], arrays are lists. *)

From Stdlib Require Import List Bool Arith Lia NArith ZArith Strings.Byte.
From stdpp Require Import gmap list.

(** ** JavaScript strings *)

Module Js.

(** A string: its UTF-16 code units, in order. *)
Inductive jsstring : Type :=
| SNil
| SCons (unit : N) (rest : jsstring).

Fixpoint of_units (l : list N) : jsstring :=
  match l with
  | [] => SNil
  | u :: l' => SCons u (of_units l')
  end.

Fixpoint to_units (s : jsstring) : list N :=
  match s with
  | SNil => []
  | SCons u s' => u :: to_units s'
  end.

(** Reading a literal: the UTF-8 bytes of the source text are decoded to
    code points, and a code point above U+FFFF gives a surrogate pair. *)
Definition continuation (b : N) : N := N.land b 63.

Definition units_of_code_point (cp : N) : list N :=
  if (cp <? 65536)%N then [cp]
  else
    let v := (cp - 65536)%N in
    [ (55296 + N.shiftr v 10)%N; (56320 + N.land v 1023)%N ].

Fixpoint decode_utf8 (fuel : nat) (l : list N) : list N :=
  match fuel with
  | O => []
  | S fuel =>
      match l with
      | [] => []
      | b :: l1 =>
          if (b <? 128)%N then b :: decode_utf8 fuel l1
          else if (b <? 224)%N then
            match l1 with
            | b1 :: l2 =>
                units_of_code_point
                  (N.shiftl (N.land b 31) 6 + continuation b1)%N
                ++ decode_utf8 fuel l2
            | _ => []
            end
          else if (b <? 240)%N then
            match l1 with
            | b1 :: b2 :: l3 =>
                units_of_code_point
                  (N.shiftl (N.land b 15) 12 + N.shiftl (continuation b1) 6
                   + continuation b2)%N
                ++ decode_utf8 fuel l3
            | _ => []
            end
          else
            match l1 with
            | b1 :: b2 :: b3 :: l4 =>
                units_of_code_point
                  (N.shiftl (N.land b 7) 18 + N.shiftl (continuation b1) 12
                   + N.shiftl (continuation b2) 6 + continuation b3)%N
                ++ decode_utf8 fuel l4
            | _ => []
            end
      end
  end.

Definition of_literal (l : list byte) : jsstring :=
  of_units (decode_utf8 (List.length l) (map Byte.to_N l)).

(** Only ASCII strings are printed as literals. *)
Definition to_literal (s : jsstring) : option (list byte) :=
  if forallb (λ u, (u <? 128)%N) (to_units s)
  then Some (omap Byte.of_N (to_units s))
  else None.

Declare Scope js_scope.
Delimit Scope js_scope with js.
Bind Scope js_scope with jsstring.
String Notation jsstring of_literal to_literal : js_scope.
Open Scope js_scope.

#[global] Instance jsstring_eq_dec : EqDecision jsstring.
Proof. solve_decision. Defined.

Definition of_to_units (s : jsstring) : of_units (to_units s) = s.
Proof. induction s as [|u s IH]; simpl; congruence. Defined.

#[global] Instance jsstring_countable : Countable jsstring :=
  inj_countable' to_units of_units of_to_units.

(** Some code units. *)
Definition LF : N := 10.
Definition SPACE : N := 32.
Definition DOT : N := 46.
Definition UNDERSCORE : N := 95.
Definition nl : jsstring := SCons LF SNil.
Definition dquote : jsstring := SCons 34 SNil.

(** The regular expression class [\s], which is also what [trim]
    removes: TAB, LF, VT, FF, CR, SPACE, U+00A0, U+1680, U+2000 to U+200A,
    U+2028, U+2029, U+202F, U+205F, U+3000 and U+FEFF. *)
Definition is_space (c : N) : bool :=
  ((9 <=? c) && (c <=? 13)
   || (c =? 32) || (c =? 160) || (c =? 5760)
   || (8192 <=? c) && (c <=? 8202)
   || (c =? 8232) || (c =? 8233) || (c =? 8239) || (c =? 8287)
   || (c =? 12288) || (c =? 65279))%N.

#[global] Arguments is_space : simpl never.

(** A string is truthy when it is not empty. *)
Definition truthy (s : jsstring) : bool :=
  match s with
  | SNil => false
  | SCons _ _ => true
  end.

(** [s.length] *)
Fixpoint slength (s : jsstring) : nat :=
  match s with
  | SNil => 0
  | SCons _ s' => S (slength s')
  end.

(** [a + b] *)
Fixpoint append (a b : jsstring) : jsstring :=
  match a with
  | SNil => b
  | SCons c a' => SCons c (append a' b)
  end.

Infix "+:+" := append (at level 60, right associativity) : js_scope.

#[global] Arguments append : simpl never.

(** [a === b] *)
Fixpoint seqb (a b : jsstring) : bool :=
  match a, b with
  | SNil, SNil => true
  | SCons c a', SCons d b' => N.eqb c d && seqb a' b'
  | _, _ => false
  end.

(** [s.startsWith(p)] *)
Fixpoint sprefix (p s : jsstring) : bool :=
  match p with
  | SNil => true
  | SCons c p' =>
      match s with
      | SNil => false
      | SCons d s' => N.eqb c d && sprefix p' s'
      end
  end.

(** [s.replace(/^\s+/, "")] *)
Fixpoint trimStart (s : jsstring) : jsstring :=
  match s with
  | SNil => SNil
  | SCons c s' => if is_space c then trimStart s' else s
  end.

(** [s.replace(/\s+$/, "")] *)
Fixpoint trimEnd (s : jsstring) : jsstring :=
  match s with
  | SNil => SNil
  | SCons c s' =>
      match trimEnd s' with
      | SNil => if is_space c then SNil else SCons c SNil
      | t => SCons c t
      end
  end.

(** [s.trim()] *)
Definition trim (s : jsstring) : jsstring := trimEnd (trimStart s).

(** [s.replace(/^\s+|\s+$/g, "")]: the leading run and the trailing run of
    white space are each replaced by nothing. *)
Definition strip_edges (s : jsstring) : jsstring := trimEnd (trimStart s).

(** [s.replace(/\s+/g, " ")]: every maximal run of white space becomes one
    space.  [in_run] tells that the previous character was white space. *)
Fixpoint replace_spaces_from (in_run : bool) (s : jsstring) : jsstring :=
  match s with
  | SNil => SNil
  | SCons c s' =>
      if is_space c
      then (if in_run then replace_spaces_from true s'
            else SCons SPACE (replace_spaces_from true s'))
      else SCons c (replace_spaces_from false s')
  end.

Definition replace_spaces (s : jsstring) : jsstring :=
  replace_spaces_from false s.

(** [s.replace(/\n{3,}/g, "\n\n")]: every maximal run of three or more
    newlines becomes two.  [run] counts the newlines of the current run
    that were kept so far (at most two). *)
Fixpoint replace_newlines_from (run : nat) (s : jsstring) : jsstring :=
  match s with
  | SNil => SNil
  | SCons c s' =>
      if N.eqb c LF
      then (if run <? 2 then SCons c (replace_newlines_from (S run) s')
            else replace_newlines_from run s')
      else SCons c (replace_newlines_from 0 s')
  end.

Definition replace_newlines (s : jsstring) : jsstring :=
  replace_newlines_from 0 s.

(** [s.repeat(n)] *)
Fixpoint repeat_str (s : jsstring) (n : nat) : jsstring :=
  match n with
  | O => SNil
  | S k => s +:+ repeat_str s k
  end.

(** [a.join(sep)] *)
Fixpoint join (sep : jsstring) (a : list jsstring) : jsstring :=
  match a with
  | [] => SNil
  | [x] => x
  | x :: rest => x +:+ sep +:+ join sep rest
  end.

(** [s.split(" ")]: the pieces between single spaces; an empty string
    gives one empty piece. *)
Fixpoint split_space (s : jsstring) : list jsstring :=
  match s with
  | SNil => [SNil]
  | SCons c s' =>
      if N.eqb c SPACE
      then SNil :: split_space s'
      else match split_space s' with
           | w :: ws => SCons c w :: ws
           | [] => [SCons c SNil]
           end
  end.

(** [hay.includes(needle)] *)
Fixpoint includes (hay needle : jsstring) : bool :=
  sprefix needle hay ||
  match hay with
  | SNil => false
  | SCons _ hay' => includes hay' needle
  end.

(** The white-space separated tokens of an attribute value. *)
Fixpoint tokens_from (cur : jsstring) (s : jsstring) : list jsstring :=
  match s with
  | SNil => if truthy cur then [cur] else []
  | SCons c s' =>
      if is_space c
      then (if truthy cur then cur :: tokens_from SNil s'
            else tokens_from SNil s')
      else tokens_from (cur +:+ SCons c SNil) s'
  end.

Definition tokens (s : jsstring) : list jsstring := tokens_from SNil s.

(** [String(n)] for a natural number: its decimal digits. *)
Fixpoint digits (d : Decimal.uint) : jsstring :=
  match d with
  | Decimal.Nil => SNil
  | Decimal.D0 d => SCons 48 (digits d)
  | Decimal.D1 d => SCons 49 (digits d)
  | Decimal.D2 d => SCons 50 (digits d)
  | Decimal.D3 d => SCons 51 (digits d)
  | Decimal.D4 d => SCons 52 (digits d)
  | Decimal.D5 d => SCons 53 (digits d)
  | Decimal.D6 d => SCons 54 (digits d)
  | Decimal.D7 d => SCons 55 (digits d)
  | Decimal.D8 d => SCons 56 (digits d)
  | Decimal.D9 d => SCons 57 (digits d)
  end.

Definition string_of_nat (n : nat) : jsstring := digits (Nat.to_uint n).

(** The string has ASCII code units only. *)
Fixpoint is_ascii (s : jsstring) : bool :=
  match s with
  | SNil => true
  | SCons c s' => (c <? 128)%N && is_ascii s'
  end.

(** The case mappings on ASCII text: A-Z to a-z, and back. *)
Definition ascii_lower_unit (c : N) : N :=
  if ((65 <=? c) && (c <=? 90))%N then (c + 32)%N else c.

Definition ascii_upper_unit (c : N) : N :=
  if ((97 <=? c) && (c <=? 122))%N then (c - 32)%N else c.

Fixpoint ascii_lower (s : jsstring) : jsstring :=
  match s with
  | SNil => SNil
  | SCons c s' => SCons (ascii_lower_unit c) (ascii_lower s')
  end.

Fixpoint ascii_upper (s : jsstring) : jsstring :=
  match s with
  | SNil => SNil
  | SCons c s' => SCons (ascii_upper_unit c) (ascii_upper s')
  end.

End Js.

Export Js.

(** ** The case mappings of the platform *)

(** [s.toLowerCase()] and [s.toUpperCase()] follow the Unicode case
    tables, which are not modelled: a result may even differ in length
    from the string.  What the development uses of them is their
    behaviour on ASCII text. *)
Class Unicode : Type := {
  toLowerCase : jsstring → jsstring;
  toUpperCase : jsstring → jsstring;
  toLowerCase_ascii :
    ∀ s, is_ascii s = true → toLowerCase s = ascii_lower s;
  toUpperCase_ascii :
    ∀ s, is_ascii s = true → toUpperCase s = ascii_upper s
}.

(** The case mappings up to U+00FF, for running the model on samples;
    above U+00FF this instance leaves the code units as they are. *)
Definition latin1_lower_unit (c : N) : N :=
  if ((65 <=? c) && (c <=? 90))%N then (c + 32)%N
  else if ((192 <=? c) && (c <=? 222) && negb (c =? 215))%N then (c + 32)%N
  else c.

Definition latin1_upper_unit (c : N) : jsstring :=
  if ((97 <=? c) && (c <=? 122))%N then SCons (c - 32)%N SNil
  else if ((224 <=? c) && (c <=? 254) && negb (c =? 247))%N
       then SCons (c - 32)%N SNil
  else if (c =? 223)%N then "SS"
  else if (c =? 255)%N then SCons 376 SNil
  else if (c =? 181)%N then SCons 924 SNil
  else SCons c SNil.

Fixpoint latin1_lower (s : jsstring) : jsstring :=
  match s with
  | SNil => SNil
  | SCons c s' => SCons (latin1_lower_unit c) (latin1_lower s')
  end.

Fixpoint latin1_upper (s : jsstring) : jsstring :=
  match s with
  | SNil => SNil
  | SCons c s' => latin1_upper_unit c +:+ latin1_upper s'
  end.

Definition sample_case : Unicode.
Proof.
  refine (Build_Unicode latin1_lower latin1_upper _ _).
  - induction s as [|c s IH]; [reflexivity|]. simpl. intros H.
    apply andb_true_iff in H as [Hc Hs]. rewrite (IH Hs). f_equal.
    unfold latin1_lower_unit, ascii_lower_unit.
    destruct ((65 <=? c) && (c <=? 90))%N; [reflexivity|].
    apply N.ltb_lt in Hc.
    destruct ((192 <=? c) && (c <=? 222) && negb (c =? 215))%N eqn:E;
      [|reflexivity].
    apply andb_true_iff in E as [E _]. apply andb_true_iff in E as [E _].
    apply N.leb_le in E. lia.
  - induction s as [|c s IH]; [reflexivity|]. simpl. intros H.
    apply andb_true_iff in H as [Hc Hs]. rewrite (IH Hs).
    apply N.ltb_lt in Hc.
    unfold latin1_upper_unit, ascii_upper_unit.
    destruct ((97 <=? c) && (c <=? 122))%N; [reflexivity|].
    destruct ((224 <=? c) && (c <=? 254) && negb (c =? 247))%N eqn:E.
    { apply andb_true_iff in E as [E _]. apply andb_true_iff in E as [E _].
      apply N.leb_le in E. lia. }
    destruct (c =? 223)%N eqn:E1; [apply N.eqb_eq in E1; lia|].
    destruct (c =? 255)%N eqn:E2; [apply N.eqb_eq in E2; lia|].
    destruct (c =? 181)%N eqn:E3; [apply N.eqb_eq in E3; lia|].
    reflexivity.
Defined.
(** ** The word wrapper, [wordWrap] *)

(** One turn of the loop over the words: the state is the array [lines]
    and the string [currentLine]. *)
Definition wordWrap_step (maxWidth : nat) (st : list jsstring * jsstring)
    (word : jsstring) : list jsstring * jsstring :=
  let '(lines, currentLine) := st in
  if slength currentLine + slength word + 1 <=? maxWidth
  then (lines,
        currentLine +:+ (if truthy currentLine then " " else SNil) +:+ word)
  else ((if truthy currentLine then lines ++ [currentLine] else lines), word).

Definition wordWrap_lines (text : jsstring) (maxWidth : nat) : list jsstring :=
  let '(lines, currentLine) :=
    fold_left (wordWrap_step maxWidth) (split_space text) ([], SNil) in
  if truthy currentLine then lines ++ [currentLine] else lines.

Definition wordWrap (text : jsstring) (maxWidth : nat) : jsstring :=
  join nl (wordWrap_lines text maxWidth).

(** ** The parsed document *)

(** A node of the tree that [cheerio.load] builds: a text leaf, a comment
    (or directive, such as the doctype), or an element with its tag name,
    its attributes and its children in document order. *)
#[warnings="-register-all"]
Inductive node : Type :=
| Text (data : jsstring)
| Comment (data : jsstring)
| Element (name : jsstring) (attribs : gmap jsstring jsstring) (children : list node).

(** The children of the root node. *)
Definition document : Type := list node.

Module Dom.

(** The simple selectors that the route uses. *)
Inductive selector : Type :=
| Tag (name : jsstring)                  (* name *)
| HasAttr (attr : jsstring)              (* [attr] *)
| AttrContains (attr value : jsstring)   (* [attr*="value"] *)
| AttrEquals (attr value : jsstring)     (* [attr="value"] *)
| Class (name : jsstring).               (* .name *)

Definition matches_element (sel : selector) (name : jsstring)
    (attribs : gmap jsstring jsstring) : bool :=
  match sel with
  | Tag t => seqb name t
  | HasAttr a => bool_decide (is_Some (attribs !! a))
  | AttrContains a v =>
      match attribs !! a with
      | Some x => includes x v
      | None => false
      end
  | AttrEquals a v =>
      match attribs !! a with
      | Some x => seqb x v
      | None => false
      end
  | Class c =>
      match attribs !! "class" with
      | Some x => existsb (seqb c) (tokens x)
      | None => false
      end
  end.

(** Only elements match a selector. *)
Definition matches (sel : selector) (n : node) : bool :=
  match n with
  | Element name attribs _ => matches_element sel name attribs
  | _ => false
  end.

(** A selector list [a, b, c] over tag names. *)
Definition tag_in (tags : list jsstring) (name : jsstring) : bool :=
  existsb (seqb name) tags.

(** [$(sel).remove()]: every element that matches is detached, at every
    depth, together with its subtree. *)
Fixpoint remove_in (sel : selector) (n : node) : node :=
  match n with
  | Element name attribs children =>
      Element name attribs
        ((fix go (l : list node) : list node :=
            match l with
            | [] => []
            | c :: l' =>
                if matches sel c then go l' else remove_in sel c :: go l'
            end) children)
  | _ => n
  end.

Fixpoint remove_list (sel : selector) (l : list node) : list node :=
  match l with
  | [] => []
  | c :: l' =>
      if matches sel c then remove_list sel l'
      else remove_in sel c :: remove_list sel l'
  end.

Definition remove (sel : selector) (doc : document) : document :=
  remove_list sel doc.

(** [.text()] of one node: the text leaves below it, concatenated. *)
Fixpoint textContent (n : node) : jsstring :=
  match n with
  | Text data => data
  | Comment _ => SNil
  | Element _ _ children =>
      (fix go (l : list node) : jsstring :=
         match l with
         | [] => SNil
         | c :: l' => textContent c +:+ go l'
         end) children
  end.

(** [.text()] of a selection. *)
Fixpoint text (l : list node) : jsstring :=
  match l with
  | [] => SNil
  | c :: l' => textContent c +:+ text l'
  end.

(** The elements below a node, the node included, in document order, each
    with the tag names of its strict ancestors (the nearest first). *)
Fixpoint elements_of (parents : list jsstring) (n : node)
    : list (list jsstring * node) :=
  match n with
  | Element name _ children =>
      (parents, n) ::
      (fix go (l : list node) : list (list jsstring * node) :=
         match l with
         | [] => []
         | c :: l' => elements_of (name :: parents) c ++ go l'
         end) children
  | _ => []
  end.

Fixpoint elements_list (parents : list jsstring) (l : list node)
    : list (list jsstring * node) :=
  match l with
  | [] => []
  | c :: l' => elements_of parents c ++ elements_list parents l'
  end.

Definition all_elements (doc : document) : list (list jsstring * node) :=
  elements_list [] doc.

Definition name_of (n : node) : jsstring :=
  match n with
  | Element name _ _ => name
  | _ => SNil
  end.

(** [$(tag)]: the elements of the document with that tag name. *)
Definition select (tag : jsstring) (doc : document) : list node :=
  map snd (List.filter (fun c => seqb (name_of (snd c)) tag)
             (all_elements doc)).

(** [$("body").find(tags)]: the elements with a tag of the list that sit
    below some [body] element, in document order, each once. *)
Definition body_find (tags : list jsstring) (doc : document)
    : list (list jsstring * node) :=
  List.filter (fun c => existsb (seqb "body") (fst c)
                         && tag_in tags (name_of (snd c)))
    (all_elements doc).

(** [$el.clone().children(tags).remove().end().text()]: the text of a copy
    of the element from which the direct children with a tag of the list
    were detached. *)
Definition text_without_children (tags : list jsstring) (children : list node)
    : jsstring :=
  text (List.filter (fun c => negb (tag_in tags (name_of c))) children).

End Dom.

Import Dom.

(** ** The readable-text pipeline, [extractText] *)

Section Pipelines.

Context `{Unicode}.

(** The state that the callback of [.each] updates: the array [lines] and
    the set [seen]. *)
Record walk_state : Type := WalkState {
  lines : list jsstring;
  seen : gset jsstring
}.

(** [lines.push(a, b, ...)] *)
Definition push (st : walk_state) (new : list jsstring) : walk_state :=
  WalkState (lines st ++ new) (seen st).

(** The [.remove()] calls at the head of [extractText], in order. *)
Definition readable_noise : list selector :=
  [ Tag "script"; Tag "style"; Tag "noscript"; Tag "iframe"; Tag "svg";
    Tag "head"; Tag "nav"; Tag "footer"; Tag "header";
    HasAttr "hidden";
    AttrContains "style" "display: none";
    AttrContains "style" "display:none";
    AttrEquals "aria-hidden" "true";
    Tag "button"; Tag "input"; Tag "select"; Tag "form";
    Class "advertisement"; Class "ads";
    AttrEquals "role" "navigation"; AttrEquals "role" "banner";
    AttrEquals "role" "complementary" ].

(** The document after a sequence of [.remove()] calls. *)
Definition remove_all (sels : list selector) (doc : document) : document :=
  fold_left (fun d sel => remove sel d) sels doc.

Definition readable_tags : list jsstring :=
  [ "h1"; "h2"; "h3"; "h4"; "h5"; "h6"; "p"; "article"; "section"; "main";
    "li"; "td"; "th"; "blockquote"; "figcaption" ].

Definition readable_containers : list jsstring :=
  [ "p"; "li"; "td"; "th"; "blockquote"; "figcaption" ].

Definition headings : list jsstring := [ "h1"; "h2"; "h3"; "h4"; "h5"; "h6" ].

Definition readable_excluded : list jsstring :=
  [ "script"; "style"; "nav"; "footer"; "header"; "aside" ].

(** The test that makes the callback return at once: some ancestor is a
    container and the element is not a heading. *)
Definition readable_skip (parents : list jsstring) (tagName : jsstring) : bool :=
  existsb (tag_in readable_containers) parents && negb (tag_in headings tagName).

(** The [switch] on the tag name. *)
Definition readable_format (tagName text : jsstring) : list jsstring :=
  if seqb tagName "h1" then
    [ SNil; toUpperCase text;
      repeat_str "=" (Nat.min (slength text) 50); SNil ]
  else if seqb tagName "h2" then
    [ SNil; text;
      repeat_str "-" (Nat.min (slength text) 40); SNil ]
  else if tag_in ["h3"; "h4"; "h5"; "h6"] tagName then
    [ SNil; "[" +:+ text +:+ "]"; SNil ]
  else if seqb tagName "li" then
    [ "  - " +:+ text ]
  else if seqb tagName "blockquote" then
    [ SNil; "  " +:+ dquote +:+ text +:+ dquote; SNil ]
  else if tag_in ["td"; "th"] tagName then
    [ "| " +:+ text +:+ " |" ]
  else if seqb tagName "figcaption" then
    [ "  (" +:+ text +:+ ")" ]
  else if 15 <? slength text then
    [ wordWrap text 80; SNil ]
  else [].

(** The text that the callback reads from the element, before the
    white-space clean-up. *)
Definition readable_raw_text (children : list node) : jsstring :=
  trim (text_without_children readable_excluded children).

(** The part of the callback after the text was cleaned: the length and
    duplicate test, the registration in [seen], the [switch]. *)
Definition readable_block (st : walk_state) (tagName text : jsstring)
    : walk_state :=
  let textLower := toLowerCase text in
  if (slength text <? 3) || bool_decide (textLower ∈ seen st) then st
  else
    let st' := WalkState (lines st) ({[ textLower ]} ∪ seen st) in
    push st' (readable_format tagName text).

(** The callback of [.each] for one selected element. *)
Definition readable_each (st : walk_state) (c : list jsstring * node)
    : walk_state :=
  match snd c with
  | Element name _ children =>
      let tagName := toLowerCase name in
      if readable_skip (fst c) tagName then st
      else
        let text := readable_raw_text children in
        if negb (truthy text) then st
        else readable_block st tagName (trim (replace_spaces text))
  | _ => st
  end.

(** The title block. *)
Definition readable_title (doc : document) : walk_state :=
  let title := trim (text (select "title" doc)) in
  if truthy title
  then WalkState
         [ title; repeat_str "=" (Nat.min (slength title) 50); SNil ]
         {[ toLowerCase title ]}
  else WalkState [] ∅.

(** The final clean-up of [extractText]. *)
Definition readable_assemble (ls : list jsstring) : jsstring :=
  trim (strip_edges (replace_newlines (join nl ls))).

(** The state after the walk over the selected elements. *)
Definition readable_walk (doc : document) : walk_state :=
  let filtered := remove_all readable_noise doc in
  fold_left readable_each (body_find readable_tags filtered)
    (readable_title filtered).

Definition extractText (doc : document) : jsstring :=
  readable_assemble (lines (readable_walk doc)).

(** ** The structured pipeline, [extractStructuredText] *)

Definition structured_noise : list selector :=
  [ Tag "script"; Tag "style"; Tag "noscript"; Tag "iframe"; Tag "svg";
    Tag "head";
    HasAttr "hidden";
    AttrContains "style" "display: none";
    AttrContains "style" "display:none" ].

Definition structured_tags : list jsstring :=
  [ "h1"; "h2"; "h3"; "h4"; "h5"; "h6"; "p"; "li"; "td"; "th"; "blockquote";
    "pre"; "span"; "div"; "a" ].

Definition structured_containers : list jsstring :=
  [ "p"; "li"; "h1"; "h2"; "h3"; "h4"; "h5"; "h6" ].

Definition structured_excluded : list jsstring := [ "script"; "style" ].

Definition structured_skip (parents : list jsstring) (tagName : jsstring) : bool :=
  existsb (tag_in structured_containers) parents
  && negb (tag_in ["a"; "span"] tagName).

(** The bullet of a list item, U+2022, one code unit. *)
Definition bullet : jsstring := "•".

Definition fence : jsstring := "```".

Definition structured_format (tagName text : jsstring) : list jsstring :=
  if seqb tagName "h1" then [ SNil; "# " +:+ text; SNil ]
  else if seqb tagName "h2" then [ SNil; "## " +:+ text; SNil ]
  else if seqb tagName "h3" then [ SNil; "### " +:+ text; SNil ]
  else if tag_in ["h4"; "h5"; "h6"] tagName then
    [ SNil; "#### " +:+ text; SNil ]
  else if seqb tagName "li" then [ bullet +:+ " " +:+ text ]
  else if seqb tagName "blockquote" then [ "> " +:+ text ]
  else if seqb tagName "pre" then [ fence; text; fence ]
  else if tag_in ["p"; "div"] tagName then
    (if 20 <? slength text then [ text; SNil ] else [])
  else [].

Definition structured_raw_text (children : list node) : jsstring :=
  trim (text_without_children structured_excluded children).

Definition structured_block (ls : list jsstring) (tagName text : jsstring)
    : list jsstring :=
  if slength text <? 2 then ls
  else ls ++ structured_format tagName text.

Definition structured_each (ls : list jsstring) (c : list jsstring * node)
    : list jsstring :=
  match snd c with
  | Element name _ children =>
      let tagName := toLowerCase name in
      if structured_skip (fst c) tagName then ls
      else
        let text := structured_raw_text children in
        if negb (truthy text) then ls
        else structured_block ls tagName (trim (replace_spaces text))
  | _ => ls
  end.

Definition structured_title (doc : document) : list jsstring :=
  let title := trim (text (select "title" doc)) in
  if truthy title then [ "# " +:+ title; SNil ] else [].

Definition structured_assemble (ls : list jsstring) : jsstring :=
  trim (replace_newlines (join nl ls)).

Definition structured_walk (doc : document) : list jsstring :=
  let filtered := remove_all structured_noise doc in
  fold_left structured_each (body_find structured_tags filtered)
    (structured_title filtered).

Definition extractStructuredText (doc : document) : jsstring :=
  structured_assemble (structured_walk doc).

End Pipelines.

(** ** Greedy line packing, as the specification words it *)

Module Spec.

(** Start with an empty line.  A word joins the current line when the line
    with a space and the word appended is not longer than the width; a bare
    word starts an empty line; otherwise the line is flushed and the word
    starts the next one.  A line is kept as the list of its words, so no
    word is ever cut. *)
Fixpoint greedy_pack (width : nat) (line : list jsstring) (words : list jsstring)
    : list (list jsstring) :=
  match words with
  | [] => match line with
          | [] => []
          | _ :: _ => [line]
          end
  | w :: rest =>
      match line with
      | [] => greedy_pack width [w] rest
      | _ :: _ =>
          if slength (join " " (line ++ [w])) <=? width
          then greedy_pack width (line ++ [w]) rest
          else line :: greedy_pack width [w] rest
      end
  end.

(** The text of a packed line. *)
Definition line_text (line : list jsstring) : jsstring := join " " line.

(** A text is white-space normalised when the clean-up of the walker leaves
    it as it is. *)
Definition normalized (text : jsstring) : Prop :=
  trim (replace_spaces text) = text.

End Spec.

(** ** The request handler, [POST] *)

Module Handler.

(** A value that [JSON.parse] can produce.  Only whether a number is zero
    is observed, so integers stand for the numbers. *)
#[warnings="-register-all"]
Inductive json : Type :=
| JNull
| JBool (b : bool)
| JNumber (n : Z)
| JString (s : jsstring)
| JArray (items : list json)
| JObject (fields : list (jsstring * json)).

(** A thrown value: whether it is an [Error], its name and its message. *)
Record js_error : Type := JsError {
  instanceof_Error : bool;
  error_name : jsstring;
  error_message : jsstring
}.

(** What the handler reads of a parsed [URL]. *)
Record URL : Type := MkURL {
  protocol : jsstring;
  href : jsstring
}.

Inductive response_body : Type :=
| ErrorBody (error : jsstring)
| ResultBody (html rawHtml textOnly structuredText url : jsstring)
    (contentLength beautifiedLength textLength : nat).

Record response : Type := Response {
  status : nat;
  body : response_body
}.

(** What [await fetch(...)] gives: a rejection, or a response with the
    outcome of [await response.text()]. *)
Inductive fetch_reply : Type :=
| FetchRejected (e : js_error)
| FetchResolved (ok : bool) (code : nat) (statusText : jsstring)
    (text : js_error + jsstring).

(** The handler as a tree of its interactions: it returns a response, or
    it issues one network fetch and goes on with the reply. *)
Inductive handler : Type :=
| Return (r : response)
| AwaitFetch (target : jsstring) (continue : fetch_reply -> handler).

(** The property [name] of an object; [None] is [undefined]. *)
Fixpoint lookup_field (name : jsstring) (fields : list (jsstring * json))
    : option json :=
  match fields with
  | [] => None
  | (k, v) :: rest => if seqb k name then Some v else lookup_field name rest
  end.

(** [!v] *)
Definition falsy (v : option json) : bool :=
  match v with
  | None => true
  | Some JNull => true
  | Some (JBool b) => negb b
  | Some (JNumber n) => Z.eqb n 0
  | Some (JString s) => negb (truthy s)
  | Some (JArray _) => false
  | Some (JObject _) => false
  end.

(** The outer [catch] block. *)
Definition on_error (e : js_error) : response :=
  if instanceof_Error e then
    if seqb (error_name e) "AbortError"
       || seqb (error_name e) "TimeoutError"
    then Response 408
           (ErrorBody "Request timed out. The website took too long to respond.")
    else Response 500 (ErrorBody (error_message e))
  else Response 500 (ErrorBody "An unexpected error occurred").

Section WithPlatform.

Context `{Unicode}.

(** The platform and the libraries: the [URL] constructor applied to a
    value ([None] when it throws), the HTML parser of [cheerio.load], the
    beautifier, the message of the [TypeError] that destructuring [null]
    throws, and the message of the error with which the [Response]
    constructor refuses a status. *)
Variable new_URL : json -> option URL.
Variable load : jsstring -> document.
Variable beautifyHtml : jsstring -> jsstring.
Variable null_message : jsstring.
Variable refusal_message : nat -> jsstring.

(** [NextResponse.json(body, { status: code })] for a status that is not
    a constant of the handler: the [Response] constructor throws a
    [RangeError] for a status outside 200 to 599, and a [TypeError] for a
    status that allows no body (204, 205, 304). *)
Definition NextResponse_json (code : nat) (b : response_body)
    : js_error + response :=
  if (code <? 200) || (599 <? code)
  then inl (JsError true "RangeError" (refusal_message code))
  else if existsb (Nat.eqb code) [204; 205; 304]
  then inl (JsError true "TypeError" (refusal_message code))
  else inr (Response code b).

(** [const { url } = v]: throws on [null]; an object gives its property;
    any other value has no such property. *)
Definition destructure_url (v : json) : js_error + option json :=
  match v with
  | JNull => inl (JsError true "TypeError" null_message)
  | JObject fields => inr (lookup_field "url" fields)
  | _ => inr None
  end.

(** The code after a successful fetch. *)
Definition respond_with (parsedUrl : URL) (reply : fetch_reply) : handler :=
  match reply with
  | FetchRejected e => Return (on_error e)
  | FetchResolved ok code statusText text =>
      if negb ok then
        match NextResponse_json code
                (ErrorBody ("Failed to fetch: " +:+ string_of_nat code
                            +:+ " " +:+ statusText)) with
        | inl e => Return (on_error e)
        | inr r => Return r
        end
      else
        match text with
        | inl e => Return (on_error e)
        | inr html =>
            let beautifiedHtml := beautifyHtml html in
            let textOnly := extractText (load html) in
            let structuredText := extractStructuredText (load html) in
            Return (Response 200
                      (ResultBody beautifiedHtml html textOnly structuredText
                         (href parsedUrl) (slength html)
                         (slength beautifiedHtml)
                         (slength textOnly)))
        end
  end.

(** The handler, from the outcome of [await request.json()]. *)
Definition POST (request_json : js_error + json) : handler :=
  match request_json with
  | inl e => Return (on_error e)
  | inr v =>
      match destructure_url v with
      | inl e => Return (on_error e)
      | inr url =>
          if falsy url then Return (Response 400 (ErrorBody "URL is required"))
          else
            match url ≫= new_URL with
            | None => Return (Response 400 (ErrorBody "Invalid URL format"))
            | Some parsedUrl =>
                if negb (tag_in ["http:"; "https:"] (protocol parsedUrl))
                then Return (Response 400 (ErrorBody "Invalid URL format"))
                else AwaitFetch (href parsedUrl) (respond_with parsedUrl)
            end
      end
  end.

End WithPlatform.

(** The handler performs no fetch and no extraction when it returns a
    response at once. *)
Definition returns_at_once (h : handler) (r : response) : Prop :=
  h = Return r.

End Handler.

(** ** Properties of strings and documents used in the statements *)

Module Props.

Definition nl3 : jsstring := nl +:+ nl +:+ nl.

(** The string has no three newline characters in a row. *)
Definition no_newline_run3 (s : jsstring) : Prop :=
  ∀ before after : jsstring, s ≠ before +:+ nl3 +:+ after.

(** The string does not start with white space. *)
Definition no_leading_space (s : jsstring) : Prop :=
  ∀ (c : N) (rest : jsstring), s = SCons c rest → is_space c = false.

(** The string does not end with white space. *)
Definition no_trailing_space (s : jsstring) : Prop :=
  ∀ (before : jsstring) (c : N),
    s = before +:+ SCons c SNil → is_space c = false.

Definition assembled (s : jsstring) : Prop :=
  no_newline_run3 s ∧ no_leading_space s ∧ no_trailing_space s.

(** The string [part] occurs in the string [whole]. *)
Definition part_of (part whole : jsstring) : Prop :=
  ∃ before after : jsstring, whole = before +:+ part +:+ after.

(** A decidable form of [no_newline_run3]: [run] newlines come just before
    the string. *)
Fixpoint newline_runs_below3 (run : nat) (s : jsstring) : bool :=
  match s with
  | SNil => true
  | SCons c s' =>
      if N.eqb c LF
      then (run <? 2) && newline_runs_below3 (S run) s'
      else newline_runs_below3 0 s'
  end.

(** No two space characters are adjacent; with [after_space] the string
    does not start with a space either. *)
Fixpoint single_spaced (after_space : bool) (s : jsstring) : bool :=
  match s with
  | SNil => true
  | SCons c s' =>
      if N.eqb c SPACE
      then negb after_space && single_spaced true s'
      else single_spaced false s'
  end.

(** The last step of [wordWrap]: the current line is pushed when it is not
    empty. *)
Definition wordWrap_finish (st : list jsstring * jsstring) : list jsstring :=
  if truthy (snd st) then fst st ++ [snd st] else fst st.

Definition nonempty (w : jsstring) : Prop := w ≠ SNil.

(** A packed line fits the width, or it is a single word. *)
Definition line_fits (width : nat) (line : list jsstring) : Prop :=
  slength (Spec.line_text line) ≤ width ∨ ∃ w, line = [w].

(** The tags whose subtrees are absent at every depth below the elements
    that the readable-text walk visits. *)
Definition deep_excluded : list selector :=
  [ Tag "script"; Tag "style"; Tag "nav"; Tag "footer"; Tag "header" ].

(** A child that is not an [aside] element. *)
Definition not_aside (c : node) : bool := negb (seqb (name_of c) "aside").

(** No element at or below the node matches the selector. *)
Fixpoint free_of (sel : selector) (n : node) : bool :=
  negb (matches sel n) &&
  match n with
  | Element _ _ children =>
      (fix go (l : list node) : bool :=
         match l with
         | [] => true
         | c :: l' => free_of sel c && go l'
         end) children
  | _ => true
  end.

End Props.

Import Props.

(** ** Sample documents *)

Module Sample.

(** An element without attributes. *)
Definition el (name : jsstring) (children : list node) : node :=
  Element name ∅ children.

(** A document whose body has the given content. *)
Definition page (content : list node) : document :=
  [ el "html" [ el "head" []; el "body" content ] ].

(** The tree of
    [<title>Doc</title><body><h1>Hi</h1><p>Some text here that is long
    enough.</p></body>]: an HTML parser puts the title into the head. *)
Definition titled_page : document :=
  [ el "html"
      [ el "head" [ el "title" [ Text "Doc" ] ];
        el "body"
          [ el "h1" [ Text "Hi" ];
            el "p" [ Text "Some text here that is long enough." ] ] ] ].

(** The same content with the title element inside the body. *)
Definition titled_body_page : document :=
  page [ el "title" [ Text "Doc" ];
         el "h1" [ Text "Hi" ];
         el "p" [ Text "Some text here that is long enough." ] ].

(** The same markup as a parser without the HTML tree-building rules
    reads it: the title and the body are the children of the root. *)
Definition titled_flat_page : document :=
  [ el "title" [ Text "Doc" ];
    el "body"
      [ el "h1" [ Text "Hi" ];
        el "p" [ Text "Some text here that is long enough." ] ] ].

Definition titled_pages : list document :=
  [ titled_page; titled_body_page; titled_flat_page ].

Definition paragraph_text : jsstring := "Some text here that is long enough.".

(** A title block, the heading HI underlined, and the paragraph, each
    separated by one blank line. *)
Definition title_heading_paragraph : jsstring :=
  "Doc" +:+ nl +:+ "===" +:+ nl +:+ nl +:+
  "HI" +:+ nl +:+ "==" +:+ nl +:+ nl +:+
  "Some text here that is long enough.".

(** [<p aria-hidden="true">This text is hidden from readers</p>] *)
Definition aria_hidden_page : document :=
  page [ Element "p" {[ "aria-hidden" := "true" ]}
           [ Text "This text is hidden from readers" ] ].

(** [<section><div><aside>side</aside></div>Main text body long
    enough</section>] *)
Definition nested_aside_page : document :=
  page [ el "section"
           [ el "div" [ el "aside" [ Text "side" ] ];
             Text "Main text body long enough" ] ].

(** [<section><aside>side</aside>Main text body long enough</section>] *)
Definition child_aside_page : document :=
  page [ el "section"
           [ el "aside" [ Text "side" ];
             Text "Main text body long enough" ] ].

(** [<li>Hello World</li><li>hello world</li>] *)
Definition hello_page : document :=
  page [ el "li" [ Text "Hello World" ]; el "li" [ Text "hello world" ] ].

(** [<p>short text</p><li>Short Text</li>] *)
Definition short_page : document :=
  page [ el "p" [ Text "short text" ]; el "li" [ Text "Short Text" ] ].

Definition chars15 : jsstring := "123456789012345".
Definition chars16 : jsstring := "1234567890123456".
Definition chars20 : jsstring := "12345678901234567890".
Definition chars21 : jsstring := "123456789012345678901".

(** [<p>Some <span>inner span text</span> follows here</p>] *)
Definition span_page : document :=
  page [ el "p" [ Text "Some "; el "span" [ Text "inner span text" ];
                  Text " follows here" ] ].

(** [<blockquote>Quoted words <h2>Inner Heading</h2></blockquote>] *)
Definition quote_page : document :=
  page [ el "blockquote"
           [ Text "Quoted words "; el "h2" [ Text "Inner Heading" ] ] ].

(** U+00A0, the no-break space that [&nbsp;] stands for. *)
Definition nbsp : jsstring := SCons 160 SNil.

(** Eight and eleven characters; in UTF-8 the accented letters take two
    bytes each. *)
Definition accented8 : jsstring := "éééééééé".
Definition accented11 : jsstring := "éééééééééé1".

(** [<li>École</li><li>école</li>] *)
Definition ecole_page : document :=
  page [ el "li" [ Text "École" ]; el "li" [ Text "école" ] ].

(** [<h1>café</h1>] *)
Definition cafe_page : document := page [ el "h1" [ Text "café" ] ].

(** [<blockquote><h2>Inner Heading</h2></blockquote>] *)
Definition quoted_heading_page : document :=
  page [ el "blockquote" [ el "h2" [ Text "Inner Heading" ] ] ].

End Sample.

(** ** The client component, [html-fetcher.tsx] *)

Module Client.

(** The type [ViewMode]. *)
Inductive ViewMode : Type :=
| beautified
| raw
| text_view          (* "text" *)
| structured.

(** The interface [FetchResult]. *)
Record FetchResult : Type := MkFetchResult {
  html : jsstring;
  rawHtml : jsstring;
  textOnly : jsstring;
  structuredText : jsstring;
  url : jsstring;
  contentLength : nat;
  beautifiedLength : nat;
  textLength : nat
}.

(** The JSON body of a response of the route, read as a [FetchResult]. *)
Definition of_body (b : Handler.response_body) : option FetchResult :=
  match b with
  | Handler.ResultBody h r t s u c bl tl => Some (MkFetchResult h r t s u c bl tl)
  | Handler.ErrorBody _ => None
  end.

Definition getDisplayContent (result : option FetchResult) (viewMode : ViewMode)
    : jsstring :=
  match result with
  | None => SNil
  | Some r =>
      match viewMode with
      | beautified => html r
      | raw => rawHtml r
      | text_view => textOnly r
      | structured => structuredText r
      end
  end.

Definition getContentLength (result : option FetchResult) (viewMode : ViewMode)
    : nat :=
  match result with
  | None => 0
  | Some r =>
      match viewMode with
      | beautified => beautifiedLength r
      | raw => contentLength r
      | text_view => textLength r
      | structured => textLength r
      end
  end.

(** [s.replace(/\./g, "_")] *)
Fixpoint replace_dots (s : jsstring) : jsstring :=
  match s with
  | SNil => SNil
  | SCons c s' =>
      SCons (if N.eqb c DOT then UNDERSCORE else c) (replace_dots s')
  end.

(** What [downloadFile] hands to the browser: the content of the blob, its
    type and the name of the file. *)
Record download : Type := MkDownload {
  content : jsstring;
  mimeType : jsstring;
  filename : jsstring
}.

(** [downloadFile]; [hostname_of] is [new URL(u).hostname], [None] when the
    constructor throws. *)
Definition downloadFile (hostname_of : jsstring → option jsstring)
    (result : option FetchResult) (viewMode : ViewMode) : option download :=
  match result with
  | None => None
  | Some r =>
      let content := getDisplayContent result viewMode in
      let isText :=
        match viewMode with
        | text_view | structured => true
        | _ => false
        end in
      let mimeType := if isText then "text/plain" else "text/html" in
      let extension := if isText then ".txt" else ".html" in
      Some (MkDownload content mimeType
              match hostname_of (url r) with
              | Some hostname => replace_dots hostname +:+ extension
              | None => "downloaded" +:+ extension
              end)
  end.

(** The start of [fetchHtml]: the error it sets for a blank input, or the
    JSON body it posts to the route. *)
Definition fetchHtml_request (url : jsstring) : jsstring + Handler.json :=
  if negb (truthy (trim url)) then inl "Please enter a URL"
  else inr (Handler.JObject [ ("url", Handler.JString (trim url)) ]).

(** The updates of the list of fetchers; [id] stands for the result of
    [crypto.randomUUID()]. *)
Definition addFetcher (prev : list jsstring) (id : jsstring) : list jsstring :=
  prev ++ [id].

Definition removeFetcher (prev : list jsstring) (id : jsstring) : list jsstring :=
  List.filter (λ fetcherId, negb (seqb fetcherId id)) prev.

(** The prop [canRemove]. *)
Definition canRemove (fetchers : list jsstring) : bool :=
  1 <? List.length fetchers.

End Client.

(** ** Running the handler *)

Module Session.

Import Handler.

(** The response of a handler when its fetch, if it issues one, is
    answered by [reply]. *)
Definition answer (h : handler) (reply : fetch_reply) : option response :=
  match h with
  | Return r => Some r
  | AwaitFetch _ continue =>
      match continue reply with
      | Return r => Some r
      | AwaitFetch _ _ => None
      end
  end.

(** The thrown value is an [Error] named for an abort or a timeout. *)
Definition timed_out (e : js_error) : bool :=
  instanceof_Error e
  && (seqb (error_name e) "AbortError"
      || seqb (error_name e) "TimeoutError").

End Session.

(** ** Further properties used in the statements *)

Module More.

(** Every white-space character is a space and no two are adjacent; with
    [after_space] the string does not start with one. *)
Fixpoint blank_separated (after_space : bool) (s : jsstring) : bool :=
  match s with
  | SNil => true
  | SCons c s' =>
      if is_space c
      then N.eqb c SPACE && negb after_space && blank_separated true s'
      else blank_separated false s'
  end.

(** How often a character occurs. *)
Fixpoint count_char (a : N) (s : jsstring) : nat :=
  match s with
  | SNil => 0
  | SCons c s' => (if N.eqb c a then 1 else 0) + count_char a s'
  end.

(** Some element at or below the nodes of the forest matches. *)
Definition some_element_matches (sel : selector) (doc : document) : Prop :=
  ∃ c, In c (all_elements doc) ∧ matches sel (snd c) = true.

Definition structured_silent_tags : list jsstring := [ "a"; "span"; "td"; "th" ].

(** The tag names and the text leaves at or below the node are ASCII. *)
Fixpoint ascii_node (n : node) : bool :=
  match n with
  | Text data => is_ascii data
  | Comment _ => true
  | Element name _ children =>
      is_ascii name &&
      (fix go (l : list node) : bool :=
         match l with
         | [] => true
         | c :: l' => ascii_node c && go l'
         end) children
  end.

Definition ascii_doc (doc : document) : bool := forallb ascii_node doc.

End More.

Import More.

(** * Theorems *)

(** ** Strings *)

Lemma app_cons (c : N) (s t : jsstring) :
  SCons c s +:+ t = SCons c (s +:+ t).
Proof. reflexivity. Qed.

Lemma app_empty_l (s : jsstring) : SNil +:+ s = s.
Proof. reflexivity. Qed.

Lemma app_empty_r (s : jsstring) : s +:+ SNil = s.
Proof. induction s as [|c s IH]; [done|]. by rewrite app_cons, IH. Qed.

Lemma app_assoc_str (a b c : jsstring) : (a +:+ b) +:+ c = a +:+ b +:+ c.
Proof. induction a as [|x a IH]; [done|]. by rewrite !app_cons, IH. Qed.

Lemma length_app_str (a b : jsstring) :
  slength (a +:+ b) = slength a + slength b.
Proof. induction a as [|x a IH]; [done|]. rewrite app_cons. simpl. by rewrite IH. Qed.

Lemma truthy_false (s : jsstring) : truthy s = false ↔ s = SNil.
Proof. destruct s; simpl; split; congruence. Qed.

Lemma truthy_true (s : jsstring) : truthy s = true ↔ s ≠ SNil.
Proof. destruct s; simpl; split; congruence. Qed.

Lemma seqb_eq (a b : jsstring) : seqb a b = true ↔ a = b.
Proof.
  revert b. induction a as [|c a IH]; intros [|d b]; simpl; try (split; congruence).
  rewrite andb_true_iff, N.eqb_eq, IH. split.
  - by intros [-> ->].
  - intros Heq. by inversion Heq.
Qed.

Lemma seqb_refl (a : jsstring) : seqb a a = true.
Proof. by apply seqb_eq. Qed.

Lemma seqb_neq (a b : jsstring) : seqb a b = false ↔ a ≠ b.
Proof.
  destruct (seqb a b) eqn:E.
  - apply seqb_eq in E. split; [discriminate|congruence].
  - split; [|done]. intros _ Heq. apply seqb_eq in Heq. congruence.
Qed.

Lemma seqb_sym (a b : jsstring) : seqb a b = seqb b a.
Proof.
  destruct (seqb b a) eqn:E.
  - apply seqb_eq in E. subst. apply seqb_refl.
  - apply seqb_neq. apply seqb_neq in E. congruence.
Qed.

Lemma space_is_space : is_space SPACE = true.
Proof. reflexivity. Qed.

(** ** The final clean-up *)

Section Assemble.

Lemma replace_newlines_from_below3 (s : jsstring) :
  ∀ run, run ≤ 2 → newline_runs_below3 run (replace_newlines_from run s) = true.
Proof.
  induction s as [|c s IH]; intros run Hrun; [done|].
  simpl. destruct (N.eqb c LF) eqn:Hc.
  - destruct (run <? 2) eqn:Hlt.
    + simpl. rewrite Hc, Hlt. simpl. apply IH.
      apply Nat.ltb_lt in Hlt. lia.
    + by apply IH.
  - simpl. rewrite Hc. apply IH. lia.
Qed.

Lemma newline_runs_below3_mono (s : jsstring) :
  ∀ run run', run' ≤ run →
    newline_runs_below3 run s = true → newline_runs_below3 run' s = true.
Proof.
  induction s as [|c s IH]; intros run run' Hle H; [done|].
  simpl in *. destruct (N.eqb c LF); [|done].
  apply andb_true_iff in H as [H1 H2]. apply andb_true_iff. split.
  - apply Nat.ltb_lt in H1. apply Nat.ltb_lt. lia.
  - apply (IH (S run)); [lia|done].
Qed.

Lemma trimStart_below3 (s : jsstring) :
  newline_runs_below3 0 s = true → newline_runs_below3 0 (trimStart s) = true.
Proof.
  induction s as [|c s IH]; intros H; [done|].
  simpl. destruct (is_space c); [|done].
  apply IH. simpl in H. destruct (N.eqb c LF); [|done].
  apply (newline_runs_below3_mono s 1 0); [lia|done].
Qed.

Lemma trimEnd_below3 (s : jsstring) :
  ∀ run, newline_runs_below3 run s = true →
         newline_runs_below3 run (trimEnd s) = true.
Proof.
  induction s as [|c s IH]; intros run H; [done|].
  simpl in *. destruct (trimEnd s) as [|d t] eqn:Ht.
  - destruct (is_space c); [done|]. simpl.
    destruct (N.eqb c LF); [|done].
    apply andb_true_iff in H as [H _]. by rewrite H.
  - change (newline_runs_below3 run (SCons c (SCons d t)))
      with (if N.eqb c LF
            then (run <? 2) && newline_runs_below3 (S run) (SCons d t)
            else newline_runs_below3 0 (SCons d t)).
    destruct (N.eqb c LF).
    + apply andb_true_iff in H as [H1 H2]. rewrite H1. simpl. by apply IH.
    + by apply IH.
Qed.

Lemma below3_no_run (s : jsstring) :
  newline_runs_below3 0 s = true → no_newline_run3 s.
Proof.
  intros H before after ->.
  assert (Hgen : ∀ run, newline_runs_below3 run (before +:+ nl3 +:+ after) = false).
  { clear H. induction before as [|c b IH]; intros run.
    - rewrite app_empty_l. unfold nl3, nl. rewrite !app_cons, !app_empty_l.
      simpl. destruct run as [|[|run]]; reflexivity.
    - rewrite app_cons. simpl. destruct (N.eqb c LF).
      + rewrite IH. apply andb_false_r.
      + apply IH. }
  by rewrite Hgen in H.
Qed.

Lemma trimStart_no_leading (s : jsstring) : no_leading_space (trimStart s).
Proof.
  induction s as [|c s IH]; intros d rest H; [done|].
  simpl in H. destruct (is_space c) eqn:Hc.
  - by apply (IH d rest).
  - by inversion H; subst.
Qed.

Lemma trimEnd_head (s : jsstring) (c : N) (rest : jsstring) :
  trimEnd s = SCons c rest → ∃ rest', s = SCons c rest'.
Proof.
  destruct s as [|d s]; [done|]. simpl.
  destruct (trimEnd s); [destruct (is_space d)|]; intros H; inversion H; eauto.
Qed.

Lemma trimEnd_no_leading (s : jsstring) :
  no_leading_space s → no_leading_space (trimEnd s).
Proof.
  intros Hs c rest H. apply trimEnd_head in H as [rest' ->]. by apply (Hs c rest').
Qed.

Lemma trimEnd_no_trailing (s : jsstring) : no_trailing_space (trimEnd s).
Proof.
  induction s as [|a s IH]; intros before c H.
  - destruct before; discriminate.
  - simpl in H. destruct (trimEnd s) as [|d t] eqn:Ht.
    + destruct (is_space a) eqn:Ha.
      * destruct before; discriminate.
      * destruct before as [|b before]; [by inversion H; subst|].
        rewrite app_cons in H. inversion H. destruct before; discriminate.
    + destruct before as [|b before]; [discriminate|].
      rewrite app_cons in H. inversion H; subst. by apply (IH before c).
Qed.

Lemma trim_assembled (s : jsstring) :
  newline_runs_below3 0 s = true → assembled (trim s).
Proof.
  intros H. unfold trim. split; [|split].
  - apply below3_no_run, trimEnd_below3, trimStart_below3, H.
  - apply trimEnd_no_leading, trimStart_no_leading.
  - apply trimEnd_no_trailing.
Qed.

Lemma structured_assemble_assembled (ls : list jsstring) :
  assembled (structured_assemble ls).
Proof.
  apply trim_assembled. apply replace_newlines_from_below3. lia.
Qed.

Lemma readable_assemble_assembled (ls : list jsstring) :
  assembled (readable_assemble ls).
Proof.
  apply trim_assembled. unfold strip_edges.
  apply trimEnd_below3, trimStart_below3.
  apply replace_newlines_from_below3. lia.
Qed.

End Assemble.

(** C9. For every document, the string that each pipeline returns has no
    run of three or more newline characters and neither starts nor ends
    with white space; and the line buffer ["a"; ""; ""; ""; "b"] is
    assembled, by either pipeline, to "a", two newlines, "b". *)
Theorem assembled_output `{Unicode} (doc : document) :
  assembled (extractText doc)
  ∧ assembled (extractStructuredText doc)
  ∧ readable_assemble ["a"; SNil; SNil; SNil; "b"]
    = "a" +:+ nl +:+ nl +:+ "b"
  ∧ structured_assemble ["a"; SNil; SNil; SNil; "b"]
    = "a" +:+ nl +:+ nl +:+ "b".
Proof.
  split; [apply readable_assemble_assembled|].
  split; [apply structured_assemble_assembled|].
  split; reflexivity.
Qed.

(** ** White-space normalised text *)

Section Normalised.

Lemma not_space_not_blank (c : N) :
  is_space c = false → N.eqb c SPACE = false.
Proof.
  intros H. destruct (N.eqb c SPACE) eqn:E; [|done].
  apply N.eqb_eq in E. subst. discriminate.
Qed.

Lemma replace_spaces_single_spaced (s : jsstring) :
  ∀ b, single_spaced b (replace_spaces_from b s) = true.
Proof.
  induction s as [|c s IH]; intros b; [done|].
  simpl. destruct (is_space c) eqn:Hc.
  - destruct b; [apply IH|]. simpl. apply IH.
  - simpl. rewrite (not_space_not_blank c Hc). apply IH.
Qed.

Lemma single_spaced_weaken (s : jsstring) (b : bool) :
  single_spaced b s = true → single_spaced false s = true.
Proof.
  destruct s as [|c s]; [done|]. simpl.
  destruct (N.eqb c SPACE); [|done].
  intros H. apply andb_true_iff in H as [_ H]. done.
Qed.

Lemma trimStart_single_spaced (s : jsstring) :
  single_spaced false s = true → single_spaced true (trimStart s) = true.
Proof.
  induction s as [|c s IH]; intros H; [done|].
  simpl. destruct (is_space c) eqn:Hc.
  - apply IH. simpl in H. destruct (N.eqb c SPACE).
    + by apply (single_spaced_weaken s true).
    + done.
  - simpl in *. by rewrite (not_space_not_blank c Hc) in *.
Qed.

Lemma trimEnd_single_spaced (s : jsstring) :
  ∀ b, single_spaced b s = true → single_spaced b (trimEnd s) = true.
Proof.
  induction s as [|c s IH]; intros b H; [done|].
  simpl in *. destruct (trimEnd s) as [|d t] eqn:Ht.
  - destruct (is_space c) eqn:Hc; [done|]. simpl.
    by rewrite (not_space_not_blank c Hc).
  - change (single_spaced b (SCons c (SCons d t)))
      with (if N.eqb c SPACE
            then negb b && single_spaced true (SCons d t)
            else single_spaced false (SCons d t)).
    destruct (N.eqb c SPACE).
    + apply andb_true_iff in H as [H1 H2]. rewrite H1, andb_true_l. by apply IH.
    + by apply IH.
Qed.

Lemma split_space_not_nil (s : jsstring) : split_space s ≠ [].
Proof.
  induction s as [|c s IH]; [done|]. simpl.
  destruct (N.eqb c SPACE); [done|]. by destruct (split_space s).
Qed.

Lemma no_trailing_space_tail (c : N) (s : jsstring) :
  no_trailing_space (SCons c s) → no_trailing_space s.
Proof. intros H before d ->. by apply (H (SCons c before) d). Qed.

(** In a single-spaced string that does not end with a space, every piece
    after the first is a word, and so is the first one unless the string
    is empty or starts with a space. *)
Lemma split_space_words (s : jsstring) :
  single_spaced false s = true → no_trailing_space s →
  Forall nonempty (tail (split_space s))
  ∧ (single_spaced true s = true → s ≠ SNil →
     Forall nonempty (split_space s)).
Proof.
  induction s as [|c s IH]; intros Hs Ht.
  - split; [constructor|done].
  - pose proof (no_trailing_space_tail c s Ht) as Ht'.
    simpl in *. destruct (N.eqb c SPACE) eqn:Hc.
    + apply N.eqb_eq in Hc. subst c.
      assert (s ≠ SNil) as Hne.
      { intros ->. by specialize (Ht SNil SPACE eq_refl). }
      destruct (IH (single_spaced_weaken s true Hs) Ht') as [_ IH2].
      split; [|done]. simpl. by apply IH2.
    + destruct (IH Hs Ht') as [IH1 _].
      pose proof (split_space_not_nil s) as Hnil.
      destruct (split_space s) as [|w ws]; [done|].
      simpl in *. split; [done|]. intros _ _. by constructor.
Qed.

Lemma normalized_words (text : jsstring) :
  Spec.normalized text →
  text = SNil ∨ Forall nonempty (split_space text).
Proof.
  unfold Spec.normalized, trim, replace_spaces. intros H.
  destruct (decide (text = SNil)) as [|Hne]; [by left|right].
  set (u := trimEnd (trimStart (replace_spaces_from false text))) in *.
  assert (single_spaced true u = true) as Hu.
  { apply trimEnd_single_spaced, trimStart_single_spaced,
      replace_spaces_single_spaced. }
  assert (no_trailing_space u) as Ht by apply trimEnd_no_trailing.
  rewrite H in Hu, Ht.
  by apply split_space_words; [apply (single_spaced_weaken _ true)| | |].
Qed.

End Normalised.

(** ** The word wrapper packs greedily *)

Section WordWrap.

Variable width : nat.

Lemma join_snoc (sep : jsstring) (g : list jsstring) (w : jsstring) :
  g ≠ [] → join sep (g ++ [w]) = join sep g +:+ sep +:+ w.
Proof.
  induction g as [|x g IH]; intros Hg; [done|].
  destruct g as [|y g]; [done|].
  change (join sep ((x :: y :: g) ++ [w]))
    with (x +:+ sep +:+ join sep ((y :: g) ++ [w])).
  rewrite IH by done.
  change (join sep (x :: y :: g)) with (x +:+ sep +:+ join sep (y :: g)).
  by rewrite !app_assoc_str.
Qed.

Lemma line_text_truthy (g : list jsstring) :
  g ≠ [] → Forall nonempty g → truthy (Spec.line_text g) = true.
Proof.
  intros Hg Hn. destruct g as [|x g]; [done|].
  apply Forall_cons in Hn as [Hx _].
  unfold Spec.line_text. destruct x as [|c x]; [done|].
  destruct g as [|y g]; [done|]. by change (join " " (SCons c x :: y :: g))
    with (SCons c (x +:+ " " +:+ join " " (y :: g))).
Qed.

Lemma wordWrap_step_eq (ls : list jsstring) (cur w : jsstring) :
  wordWrap_step width (ls, cur) w
  = if slength cur + slength w + 1 <=? width
    then (ls, cur +:+ (if truthy cur then " " else SNil) +:+ w)
    else ((if truthy cur then ls ++ [cur] else ls), w).
Proof. reflexivity. Qed.

(** The loop of [wordWrap], started with the text of a packed line in
    [currentLine], ends with the lines that greedy packing gives. *)
Lemma wordWrap_loop_greedy (words : list jsstring) :
  ∀ (done_lines : list jsstring) (g : list jsstring),
    Forall nonempty g → Forall nonempty words →
    wordWrap_finish
      (fold_left (wordWrap_step width) words (done_lines, Spec.line_text g))
    = done_lines ++ map Spec.line_text (Spec.greedy_pack width g words).
Proof.
  induction words as [|w rest IH]; intros done_lines g Hg Hw.
  - simpl. unfold wordWrap_finish. simpl. destruct g as [|x g].
    + simpl. by rewrite app_nil_r.
    + by rewrite line_text_truthy.
  - apply Forall_cons in Hw as [Hw Hrest].
    cbn [fold_left]. rewrite wordWrap_step_eq.
    destruct g as [|x g].
    + change (Spec.line_text []) with SNil. simpl.
      change (Spec.greedy_pack width [w] rest)
        with (Spec.greedy_pack width [w] rest).
      destruct (slength w + 1 <=? width);
        apply (IH done_lines [w]); auto.
    + rewrite line_text_truthy by done.
      assert (slength (join " " ((x :: g) ++ [w]))
              = slength (Spec.line_text (x :: g)) + slength w + 1)
        as Hlen.
      { rewrite join_snoc by done. rewrite !length_app_str.
        unfold Spec.line_text. simpl. lia. }
      change (Spec.greedy_pack width (x :: g) (w :: rest))
        with (if slength (join " " ((x :: g) ++ [w])) <=? width
              then Spec.greedy_pack width ((x :: g) ++ [w]) rest
              else (x :: g) :: Spec.greedy_pack width [w] rest).
      rewrite Hlen.
      destruct (slength (Spec.line_text (x :: g)) + slength w + 1
                <=? width).
      * replace (Spec.line_text (x :: g) +:+ " " +:+ w)
          with (Spec.line_text ((x :: g) ++ [w]))
          by (unfold Spec.line_text; by rewrite join_snoc).
        apply IH; [|done]. apply Forall_app. split; [done|by constructor].
      * pose proof (IH (done_lines ++ [Spec.line_text (x :: g)]) [w]) as E.
        change (Spec.line_text [w]) with w in E.
        rewrite E; [|by constructor|done].
        by rewrite <- app_assoc.
Qed.

Lemma wordWrap_lines_greedy (text : jsstring) :
  Forall nonempty (split_space text) →
  wordWrap_lines text width
  = map Spec.line_text (Spec.greedy_pack width [] (split_space text)).
Proof.
  intros H. unfold wordWrap_lines.
  pose proof (wordWrap_loop_greedy (split_space text) [] [] (List.Forall_nil _) H)
    as Hloop.
  unfold wordWrap_finish in Hloop. change (Spec.line_text []) with SNil in Hloop.
  destruct (fold_left (wordWrap_step width) (split_space text) ([], SNil))
    as [ls cur].
  exact Hloop.
Qed.

(** Packing keeps the words, whole and in order. *)
Lemma greedy_pack_concat (words : list jsstring) :
  ∀ g, concat (Spec.greedy_pack width g words) = g ++ words.
Proof.
  induction words as [|w rest IH]; intros g.
  - destruct g; simpl; by rewrite ?app_nil_r.
  - destruct g as [|x g].
    + simpl. by rewrite IH.
    + change (Spec.greedy_pack width (x :: g) (w :: rest))
        with (if slength (join " " ((x :: g) ++ [w])) <=? width
              then Spec.greedy_pack width ((x :: g) ++ [w]) rest
              else (x :: g) :: Spec.greedy_pack width [w] rest).
      destruct (slength (join " " ((x :: g) ++ [w])) <=? width).
      * rewrite IH. by rewrite <- app_assoc.
      * change (concat ((x :: g) :: Spec.greedy_pack width [w] rest))
          with ((x :: g) ++ concat (Spec.greedy_pack width [w] rest)).
        by rewrite IH.
Qed.

Lemma greedy_pack_fits (words : list jsstring) :
  ∀ g, g = [] ∨ line_fits width g →
       Forall (line_fits width) (Spec.greedy_pack width g words).
Proof.
  induction words as [|w rest IH]; intros g Hg.
  - destruct g as [|x g]; simpl; [constructor|].
    destruct Hg as [|Hg]; [done|]. constructor; [exact Hg|constructor].
  - destruct g as [|x g].
    + simpl. apply IH. right. right. by exists w.
    + change (Spec.greedy_pack width (x :: g) (w :: rest))
        with (if slength (join " " ((x :: g) ++ [w])) <=? width
              then Spec.greedy_pack width ((x :: g) ++ [w]) rest
              else (x :: g) :: Spec.greedy_pack width [w] rest).
      destruct (slength (join " " ((x :: g) ++ [w])) <=? width) eqn:E.
      * apply IH. right. left. by apply Nat.leb_le in E.
      * constructor.
        -- by destruct Hg.
        -- apply IH. right. right. by exists w.
Qed.

(** A word longer than the width is a line of its own. *)
Lemma greedy_pack_long_first (w : jsstring) (rest : list jsstring) :
  width < slength w → In [w] (Spec.greedy_pack width [w] rest).
Proof.
  intros Hw. destruct rest as [|w' rest]; [by left|].
  change (Spec.greedy_pack width [w] (w' :: rest))
    with (if slength (join " " ([w] ++ [w'])) <=? width
          then Spec.greedy_pack width ([w] ++ [w']) rest
          else [w] :: Spec.greedy_pack width [w'] rest).
  rewrite join_snoc by done. rewrite !length_app_str. simpl join.
  destruct (_ <=? width) eqn:E; [|by left].
  apply Nat.leb_le in E. lia.
Qed.

Lemma greedy_pack_long_alone (words : list jsstring) (w : jsstring) :
  width < slength w →
  ∀ g, In w words → In [w] (Spec.greedy_pack width g words).
Proof.
  intros Hw. induction words as [|w' rest IH]; intros g Hin; [done|].
  destruct g as [|x g].
  - simpl. destruct Hin as [->|Hin]; [by apply greedy_pack_long_first|by apply IH].
  - change (Spec.greedy_pack width (x :: g) (w' :: rest))
      with (if slength (join " " ((x :: g) ++ [w'])) <=? width
            then Spec.greedy_pack width ((x :: g) ++ [w']) rest
            else (x :: g) :: Spec.greedy_pack width [w'] rest).
    destruct Hin as [->|Hin].
    + rewrite join_snoc by done. rewrite !length_app_str.
      destruct (_ <=? width) eqn:E.
      * apply Nat.leb_le in E. lia.
      * right. by apply greedy_pack_long_first.
    + destruct (_ <=? width); [by apply IH|]. right. by apply IH.
Qed.

End WordWrap.

(** C7. For every white-space normalised text and every width, [wordWrap]
    returns the lines of greedy packing joined by newlines: the words are
    kept whole and in order, every line fits the width or is a single
    word, and a word longer than the width is a line of its own.  At
    width 9, "aaaa bbbb cccc dddd" is wrapped to "aaaa bbbb" and
    "cccc dddd"; lengths are counted in UTF-16 code units, so at width 5
    the first line of "éé éé éé" holds two words. *)
Theorem wordWrap_greedy_packing (text : jsstring) (width : nat) :
  Spec.normalized text →
  let words := split_space text in
  let packed := Spec.greedy_pack width [] words in
  wordWrap text width = join nl (map Spec.line_text packed)
  ∧ concat packed = words
  ∧ Forall (line_fits width) packed
  ∧ (∀ w, In w words → width < slength w →
          In w (wordWrap_lines text width))
  ∧ wordWrap "aaaa bbbb cccc dddd" 9 = "aaaa bbbb" +:+ nl +:+ "cccc dddd"
  ∧ wordWrap "a bbbbbbbbbbbb c" 5 = "a" +:+ nl +:+ "bbbbbbbbbbbb" +:+ nl +:+ "c"
  ∧ wordWrap "éé éé éé" 5 = "éé éé" +:+ nl +:+ "éé".
Proof.
  intros Hnorm words packed.
  split; [|split; [|split; [|split; [|repeat split; reflexivity]]]].
  - destruct (normalized_words text Hnorm) as [->|Hwords].
    { by destruct width. }
    unfold wordWrap. by rewrite wordWrap_lines_greedy.
  - apply (greedy_pack_concat width words []).
  - apply greedy_pack_fits. by left.
  - intros w Hin Hlong.
    destruct (normalized_words text Hnorm) as [->|Hwords].
    { destruct Hin as [<-|[]]. simpl in Hlong. lia. }
    rewrite wordWrap_lines_greedy by done.
    change w with (Spec.line_text [w]). apply in_map.
    by apply greedy_pack_long_alone.
Qed.

Lemma wordWrap_greedy_packing_witness :
  Spec.normalized "one two three"
  ∧ wordWrap "one two three" 7
    = join nl (map Spec.line_text
                 (Spec.greedy_pack 7 [] (split_space "one two three"))).
Proof.
  split; [reflexivity|].
  exact (proj1 (wordWrap_greedy_packing "one two three" 7 eq_refl)).
Defined.

(** ** Documents and removal *)

Section Removal.

(** Induction over a node with the hypothesis for every child. *)
Lemma node_induction (P : node → Prop) :
  (∀ d, P (Text d)) →
  (∀ d, P (Comment d)) →
  (∀ name attribs children,
      Forall P children → P (Element name attribs children)) →
  ∀ n, P n.
Proof.
  intros HT HC HE. fix IH 1. intros [d|d|name attribs children].
  - apply HT.
  - apply HC.
  - apply HE. induction children as [|c cs IHcs]; constructor.
    + apply IH.
    + apply IHcs.
Qed.

Lemma remove_in_element (sel : selector) name attribs children :
  remove_in sel (Element name attribs children)
  = Element name attribs (remove_list sel children).
Proof.
  simpl. f_equal. induction children as [|c cs IH]; [done|].
  simpl. destruct (matches sel c); by rewrite IH.
Qed.

Lemma matches_remove_in (sel sel' : selector) (n : node) :
  matches sel (remove_in sel' n) = matches sel n.
Proof. by destruct n. Qed.

Lemma remove_list_comm_on (a b : selector) (l : list node) :
  Forall (λ n, remove_in a (remove_in b n) = remove_in b (remove_in a n)) l →
  remove_list a (remove_list b l) = remove_list b (remove_list a l).
Proof.
  induction 1 as [|c l Hc Hl IH]; [done|].
  simpl. destruct (matches b c) eqn:Hb, (matches a c) eqn:Ha; simpl;
    rewrite ?matches_remove_in, ?Ha, ?Hb; try done.
  by rewrite Hc, IH.
Qed.

Lemma remove_in_comm (a b : selector) (n : node) :
  remove_in a (remove_in b n) = remove_in b (remove_in a n).
Proof.
  induction n as [d|d|name attribs children IH] using node_induction;
    try done.
  rewrite !remove_in_element. f_equal. by apply remove_list_comm_on.
Qed.

Lemma remove_comm (a b : selector) (doc : document) :
  remove a (remove b doc) = remove b (remove a doc).
Proof.
  apply remove_list_comm_on, Forall_forall. intros n _. apply remove_in_comm.
Qed.

Lemma remove_list_idem_on (a : selector) (l : list node) :
  Forall (λ n, remove_in a (remove_in a n) = remove_in a n) l →
  remove_list a (remove_list a l) = remove_list a l.
Proof.
  induction 1 as [|c l Hc Hl IH]; [done|].
  simpl. destruct (matches a c) eqn:Ha; [done|].
  simpl. by rewrite matches_remove_in, Ha, Hc, IH.
Qed.

Lemma remove_in_idem (a : selector) (n : node) :
  remove_in a (remove_in a n) = remove_in a n.
Proof.
  induction n as [d|d|name attribs children IH] using node_induction;
    try done.
  rewrite !remove_in_element. f_equal. by apply remove_list_idem_on.
Qed.

Lemma remove_idem (a : selector) (doc : document) :
  remove a (remove a doc) = remove a doc.
Proof.
  apply remove_list_idem_on, Forall_forall. intros n _. apply remove_in_idem.
Qed.

(** Removing first what one of the [.remove()] calls removes anyway does
    not change the filtered document. *)
Lemma remove_all_absorbs (sels : list selector) (s : selector) :
  In s sels → ∀ doc, remove_all sels (remove s doc) = remove_all sels doc.
Proof.
  unfold remove_all.
  induction sels as [|a sels IH]; intros Hin doc; [done|].
  simpl. destruct Hin as [->|Hin].
  - by rewrite remove_idem.
  - rewrite remove_comm. by apply IH.
Qed.

End Removal.

(** ** ASCII documents *)

(** On a document whose tag names and text are ASCII, the case mappings
    of the platform act as those of the sample instance, so the
    pipelines can be run. *)
Section AsciiDocuments.

Context `{Unicode}.

Lemma lower_fixed (s : jsstring) :
  is_ascii s = true → ascii_lower s = s → toLowerCase s = s.
Proof. intros Ha Hs. by rewrite toLowerCase_ascii. Qed.

Lemma lower_sample (s : jsstring) :
  is_ascii s = true → toLowerCase s = @toLowerCase sample_case s.
Proof.
  intros Ha. rewrite toLowerCase_ascii by done.
  by rewrite (@toLowerCase_ascii sample_case).
Qed.

Lemma upper_sample (s : jsstring) :
  is_ascii s = true → toUpperCase s = @toUpperCase sample_case s.
Proof.
  intros Ha. rewrite toUpperCase_ascii by done.
  by rewrite (@toUpperCase_ascii sample_case).
Qed.

Lemma is_ascii_app (a b : jsstring) :
  is_ascii (a +:+ b) = is_ascii a && is_ascii b.
Proof.
  induction a as [|c a IH]; [done|]. rewrite app_cons. simpl.
  by rewrite IH, andb_assoc.
Qed.

Lemma is_ascii_trimStart (s : jsstring) :
  is_ascii s = true → is_ascii (trimStart s) = true.
Proof.
  induction s as [|c s IH]; [done|]. simpl. intros Hs.
  destruct (is_space c); [|done].
  apply andb_true_iff in Hs as [_ Hs]. by apply IH.
Qed.

Lemma is_ascii_trimEnd (s : jsstring) :
  is_ascii s = true → is_ascii (trimEnd s) = true.
Proof.
  induction s as [|c s IH]; [done|]. simpl. intros Hs.
  apply andb_true_iff in Hs as [Hc Hs]. specialize (IH Hs).
  destruct (trimEnd s) as [|d t].
  - destruct (is_space c); [done|]. simpl. by rewrite Hc.
  - change (is_ascii (SCons c (SCons d t)))
      with ((c <? 128)%N && is_ascii (SCons d t)).
    by rewrite Hc, IH.
Qed.

Lemma is_ascii_trim (s : jsstring) :
  is_ascii s = true → is_ascii (trim s) = true.
Proof. intros Hs. by apply is_ascii_trimEnd, is_ascii_trimStart. Qed.

Lemma is_ascii_replace_spaces (s : jsstring) :
  ∀ b, is_ascii s = true → is_ascii (replace_spaces_from b s) = true.
Proof.
  induction s as [|c s IH]; intros b Hs; [done|].
  simpl in *. apply andb_true_iff in Hs as [Hc Hs].
  destruct (is_space c).
  - destruct b; [by apply IH|]. simpl. by apply IH.
  - simpl. rewrite Hc. by apply IH.
Qed.

Lemma ascii_node_element name attribs children :
  ascii_node (Element name attribs children)
  = is_ascii name && forallb ascii_node children.
Proof. reflexivity. Qed.

Lemma forallb_ascii_on (l : list node) (f : node → jsstring) :
  Forall (λ n, ascii_node n = true → is_ascii (f n) = true) l →
  forallb ascii_node l = true → Forall (λ n, is_ascii (f n) = true) l.
Proof.
  induction 1 as [|c l Hc Hl IH]; [constructor|].
  simpl. intros H0. apply andb_true_iff in H0 as [H1 H2].
  constructor; [by apply Hc|by apply IH].
Qed.

Lemma text_ascii_on (l : list node) :
  Forall (λ n, is_ascii (textContent n) = true) l → is_ascii (text l) = true.
Proof.
  induction 1 as [|c l Hc Hl IH]; [done|].
  simpl. by rewrite is_ascii_app, Hc, IH.
Qed.

Lemma text_is_textContent name attribs children :
  textContent (Element name attribs children) = text children.
Proof. reflexivity. Qed.

Lemma textContent_ascii (n : node) :
  ascii_node n = true → is_ascii (textContent n) = true.
Proof.
  induction n as [d|d|name attribs children IH] using node_induction;
    try done.
  rewrite ascii_node_element, text_is_textContent. intros Hn.
  apply andb_true_iff in Hn as [_ Hn].
  by apply text_ascii_on, forallb_ascii_on.
Qed.

Lemma text_ascii (l : list node) :
  forallb ascii_node l = true → is_ascii (text l) = true.
Proof.
  intros Hl. apply text_ascii_on. rewrite forallb_forall in Hl.
  apply List.Forall_forall. intros n Hn. by apply textContent_ascii, Hl.
Qed.

Lemma remove_list_ascii_on (sel : selector) (l : list node) :
  Forall (λ n, ascii_node n = true → ascii_node (remove_in sel n) = true) l →
  forallb ascii_node l = true → forallb ascii_node (remove_list sel l) = true.
Proof.
  induction 1 as [|c l Hc Hl IH]; [done|].
  simpl. intros H0. apply andb_true_iff in H0 as [H1 H2].
  destruct (matches sel c); [by apply IH|].
  simpl. by rewrite Hc, IH.
Qed.

Lemma remove_in_ascii (sel : selector) (n : node) :
  ascii_node n = true → ascii_node (remove_in sel n) = true.
Proof.
  induction n as [d|d|name attribs children IH] using node_induction;
    try done.
  rewrite remove_in_element, !ascii_node_element. intros Hn.
  apply andb_true_iff in Hn as [H1 H2]. rewrite H1. simpl.
  by apply remove_list_ascii_on.
Qed.

Lemma remove_all_ascii (sels : list selector) :
  ∀ doc, ascii_doc doc = true → ascii_doc (remove_all sels doc) = true.
Proof.
  unfold remove_all, ascii_doc.
  induction sels as [|a sels IH]; intros doc Hd; [done|].
  simpl. apply IH. apply remove_list_ascii_on; [|done].
  apply List.Forall_forall. intros n _. apply remove_in_ascii.
Qed.

Lemma in_elements_list (parents : list jsstring) (l : list node)
    (c : list jsstring * node) :
  In c (elements_list parents l) ↔ ∃ m, In m l ∧ In c (elements_of parents m).
Proof.
  induction l as [|x l IH]; simpl.
  - split; [done|]. by intros [m [[] _]].
  - rewrite in_app_iff, IH. split.
    + intros [Hx|[m [Hm Hx]]]; [exists x|exists m]; auto.
    + intros [m [[->|Hm] Hx]]; [by left|right; by exists m].
Qed.

Lemma elements_of_element (parents : list jsstring) name attribs children :
  elements_of parents (Element name attribs children)
  = (parents, Element name attribs children)
    :: elements_list (name :: parents) children.
Proof.
  simpl. f_equal. induction children as [|c cs IH]; [done|].
  simpl. by rewrite IH.
Qed.

Lemma elements_of_ascii (m : node) :
  ∀ ps0 ps n, In (ps, n) (elements_of ps0 m) →
              ascii_node m = true → ascii_node n = true.
Proof.
  induction m as [d|d|name attribs children IH] using node_induction;
    intros ps0 ps n Hin Hm; try done.
  rewrite elements_of_element in Hin. destruct Hin as [Heq|Hin].
  - by inversion Heq; subst.
  - apply in_elements_list in Hin as [c [Hc Hin]].
    rewrite List.Forall_forall in IH.
    apply (IH c Hc (name :: ps0) ps n Hin).
    rewrite ascii_node_element in Hm. apply andb_true_iff in Hm as [_ Hm].
    rewrite forallb_forall in Hm. by apply Hm.
Qed.

Lemma all_elements_ascii (doc : document) (c : list jsstring * node) :
  In c (all_elements doc) → ascii_doc doc = true → ascii_node (snd c) = true.
Proof.
  destruct c as [ps n]. intros Hin Hd.
  apply in_elements_list in Hin as [m [Hm Hin]].
  unfold ascii_doc in Hd. rewrite forallb_forall in Hd.
  by apply (elements_of_ascii m [] ps n Hin), Hd.
Qed.

Lemma select_ascii (tag : jsstring) (doc : document) :
  ascii_doc doc = true → forallb ascii_node (select tag doc) = true.
Proof.
  intros Hd. apply forallb_forall. intros n Hn.
  unfold select in Hn. apply in_map_iff in Hn as [c [<- Hc]].
  apply filter_In in Hc as [Hc _]. by apply (all_elements_ascii doc c).
Qed.

Lemma raw_text_ascii (tags : list jsstring) (children : list node) :
  forallb ascii_node children = true →
  is_ascii (trim (text_without_children tags children)) = true.
Proof.
  intros Hc. apply is_ascii_trim, text_ascii.
  apply forallb_forall. intros n Hn. apply filter_In in Hn as [Hn _].
  rewrite forallb_forall in Hc. by apply Hc.
Qed.

Lemma clean_text_ascii (s : jsstring) :
  is_ascii s = true → is_ascii (trim (replace_spaces s)) = true.
Proof. intros Hs. by apply is_ascii_trim, is_ascii_replace_spaces. Qed.

Lemma readable_block_sample (st : walk_state) (tagName t : jsstring) :
  is_ascii t = true →
  readable_block st tagName t = @readable_block sample_case st tagName t.
Proof.
  intros Ht. unfold readable_block, readable_format.
  by rewrite (lower_sample t Ht), (upper_sample t Ht).
Qed.

Lemma readable_each_sample (st : walk_state) (c : list jsstring * node) :
  ascii_node (snd c) = true →
  readable_each st c = @readable_each sample_case st c.
Proof.
  unfold readable_each. destruct (snd c) as [d|d|name attribs children];
    try done.
  rewrite ascii_node_element. intros Hn. apply andb_true_iff in Hn as [Hname Hc].
  rewrite (lower_sample name Hname).
  destruct (readable_skip _ _); [done|].
  destruct (negb _); [done|].
  apply readable_block_sample, clean_text_ascii, raw_text_ascii, Hc.
Qed.

Lemma structured_each_sample (ls : list jsstring) (c : list jsstring * node) :
  ascii_node (snd c) = true →
  structured_each ls c = @structured_each sample_case ls c.
Proof.
  unfold structured_each. destruct (snd c) as [d|d|name attribs children];
    try done.
  rewrite ascii_node_element. intros Hn. apply andb_true_iff in Hn as [Hname Hc].
  by rewrite (lower_sample name Hname).
Qed.

Lemma fold_left_agree {A B : Type} (f g : A → B → A) (l : list B) :
  (∀ a b, In b l → f a b = g a b) →
  ∀ a, fold_left f l a = fold_left g l a.
Proof.
  induction l as [|b l IH]; intros Hfg a; [done|].
  simpl. rewrite (Hfg a b) by (by left).
  apply IH. intros a' b' Hb'. apply Hfg. by right.
Qed.

Lemma body_find_ascii (tags : list jsstring) (doc : document)
    (c : list jsstring * node) :
  ascii_doc doc = true → In c (body_find tags doc) → ascii_node (snd c) = true.
Proof.
  intros Hd Hc. apply filter_In in Hc as [Hc _].
  by apply (all_elements_ascii doc c).
Qed.

Lemma extractText_sample (doc : document) :
  ascii_doc doc = true → extractText doc = @extractText sample_case doc.
Proof.
  intros Hd. unfold extractText, readable_walk. f_equal. f_equal.
  pose proof (remove_all_ascii readable_noise doc Hd) as Hf.
  assert (readable_title (remove_all readable_noise doc)
          = @readable_title sample_case (remove_all readable_noise doc)) as ->.
  { unfold readable_title. rewrite lower_sample; [done|].
    apply is_ascii_trim, text_ascii, select_ascii, Hf. }
  apply fold_left_agree. intros st c Hc.
  apply readable_each_sample, (body_find_ascii readable_tags _ c Hf Hc).
Qed.

Lemma extractStructuredText_sample (doc : document) :
  ascii_doc doc = true →
  extractStructuredText doc = @extractStructuredText sample_case doc.
Proof.
  intros Hd. unfold extractStructuredText, structured_walk. f_equal.
  pose proof (remove_all_ascii structured_noise doc Hd) as Hf.
  apply fold_left_agree. intros st c Hc.
  apply structured_each_sample, (body_find_ascii structured_tags _ c Hf Hc).
Qed.

End AsciiDocuments.

(** The output of a pipeline on an ASCII sample. *)
Ltac run_sample :=
  rewrite ?extractText_sample, ?extractStructuredText_sample by reflexivity;
  reflexivity.

(** C2, as amended.  In the readable-text pipeline no element with the
    attribute aria-hidden="true" contributes to the output: the output is
    that of the document from which these elements were detached. *)
Theorem readable_ignores_aria_hidden `{Unicode} (doc : document) :
  extractText (remove (AttrEquals "aria-hidden" "true") doc) = extractText doc.
Proof.
  unfold extractText, readable_walk.
  rewrite remove_all_absorbs; [done|].
  unfold readable_noise. do 12 right. by left.
Qed.

(** C2, as stated, fails for the structured pipeline: it has no
    [.remove()] call for aria-hidden, and the text of such an element is
    its output. *)
Lemma structured_keeps_aria_hidden :
  (∀ U : Unicode,
      ¬ (∀ doc : document,
            extractStructuredText (remove (AttrEquals "aria-hidden" "true") doc)
            = extractStructuredText doc))
  ∧ (∀ U : Unicode,
        extractStructuredText Sample.aria_hidden_page
        = "This text is hidden from readers").
Proof.
  split; intros U; [|run_sample].
  intros H. specialize (H Sample.aria_hidden_page).
  rewrite !(@extractStructuredText_sample U) in H by reflexivity.
  vm_compute in H. discriminate.
Qed.

(** ** Documents free of a selector *)

Section Free.

Lemma free_of_element (sel : selector) name attribs children :
  free_of sel (Element name attribs children)
  = negb (matches_element sel name attribs) && forallb (free_of sel) children.
Proof. reflexivity. Qed.

Lemma free_of_not_matches (sel : selector) (n : node) :
  free_of sel n = true → matches sel n = false.
Proof.
  destruct n; try done. rewrite free_of_element. simpl.
  intros H. apply andb_true_iff in H as [H _]. by apply negb_true_iff.
Qed.

Lemma remove_list_free_on (sel : selector) (l : list node) :
  Forall (λ n, matches sel n = false → free_of sel (remove_in sel n) = true) l →
  forallb (free_of sel) (remove_list sel l) = true.
Proof.
  induction 1 as [|c l Hc Hl IH]; [done|].
  simpl. destruct (matches sel c) eqn:Hm; [done|].
  simpl. by rewrite Hc, IH.
Qed.

Lemma remove_in_free (sel : selector) (n : node) :
  matches sel n = false → free_of sel (remove_in sel n) = true.
Proof.
  induction n as [d|d|name attribs children IH] using node_induction;
    try done.
  intros Hm. rewrite remove_in_element, free_of_element.
  simpl in Hm. rewrite Hm. simpl. by apply remove_list_free_on.
Qed.

Lemma remove_free (sel : selector) (doc : document) :
  forallb (free_of sel) (remove sel doc) = true.
Proof.
  apply remove_list_free_on, Forall_forall. intros n _. apply remove_in_free.
Qed.

Lemma remove_list_keeps_free_on (s sel : selector) (l : list node) :
  Forall (λ n, free_of s n = true → free_of s (remove_in sel n) = true) l →
  forallb (free_of s) l = true →
  forallb (free_of s) (remove_list sel l) = true.
Proof.
  induction 1 as [|c l Hc Hl IH]; [done|].
  simpl. intros H. apply andb_true_iff in H as [H1 H2].
  destruct (matches sel c); [by apply IH|].
  simpl. by rewrite Hc, IH.
Qed.

Lemma remove_in_keeps_free (s sel : selector) (n : node) :
  free_of s n = true → free_of s (remove_in sel n) = true.
Proof.
  induction n as [d|d|name attribs children IH] using node_induction;
    try done.
  rewrite remove_in_element, !free_of_element. intros H.
  apply andb_true_iff in H as [H1 H2]. rewrite H1. simpl.
  by apply remove_list_keeps_free_on.
Qed.

Lemma remove_keeps_free (s sel : selector) (doc : document) :
  forallb (free_of s) doc = true →
  forallb (free_of s) (remove sel doc) = true.
Proof.
  apply remove_list_keeps_free_on, Forall_forall.
  intros n _. apply remove_in_keeps_free.
Qed.

Lemma remove_all_keeps_free (s : selector) (sels : list selector) :
  ∀ doc, forallb (free_of s) doc = true →
         forallb (free_of s) (remove_all sels doc) = true.
Proof.
  unfold remove_all. induction sels as [|a sels IH]; intros doc H; [done|].
  simpl. by apply IH, remove_keeps_free.
Qed.

(** After the [.remove()] calls, nothing in the document matches any of
    their selectors. *)
Lemma remove_all_free (s : selector) (sels : list selector) :
  In s sels → ∀ doc, forallb (free_of s) (remove_all sels doc) = true.
Proof.
  induction sels as [|a sels IH]; intros Hin doc; [done|].
  destruct Hin as [->|Hin].
  - apply (remove_all_keeps_free s sels (remove s doc)), remove_free.
  - apply (IH Hin (remove a doc)).
Qed.

Lemma remove_list_free_id_on (sel : selector) (l : list node) :
  Forall (λ n, free_of sel n = true → remove_in sel n = n) l →
  forallb (free_of sel) l = true → remove_list sel l = l.
Proof.
  induction 1 as [|c l Hc Hl IH]; [done|].
  simpl. intros H. apply andb_true_iff in H as [H1 H2].
  rewrite (free_of_not_matches sel c H1). by rewrite Hc, IH.
Qed.

Lemma remove_in_free_id (sel : selector) (n : node) :
  free_of sel n = true → remove_in sel n = n.
Proof.
  induction n as [d|d|name attribs children IH] using node_induction;
    try done.
  rewrite remove_in_element, free_of_element. intros H.
  apply andb_true_iff in H as [_ H]. f_equal.
  by apply remove_list_free_id_on.
Qed.

Lemma remove_free_id (sel : selector) (l : list node) :
  forallb (free_of sel) l = true → remove sel l = l.
Proof.
  apply remove_list_free_id_on, Forall_forall.
  intros n _. apply remove_in_free_id.
Qed.

(** The children of an element of a free forest form a free forest. *)
Lemma elements_free_on (sel : selector) (l : list node) :
  Forall (λ n, ∀ parents ps name attribs children,
              In (ps, Element name attribs children) (elements_of parents n) →
              free_of sel n = true →
              forallb (free_of sel) children = true) l →
  ∀ parents ps name attribs children,
    In (ps, Element name attribs children) (elements_list parents l) →
    forallb (free_of sel) l = true →
    forallb (free_of sel) children = true.
Proof.
  induction 1 as [|c l Hc Hl IH]; intros parents ps name attribs children Hin Hf;
    [done|].
  simpl in Hin, Hf. apply andb_true_iff in Hf as [Hf1 Hf2].
  apply in_app_or in Hin as [Hin|Hin].
  - by apply (Hc parents ps name attribs children).
  - by apply (IH parents ps name attribs children).
Qed.

Lemma elements_of_free (sel : selector) (n : node) :
  ∀ parents ps name attribs children,
    In (ps, Element name attribs children) (elements_of parents n) →
    free_of sel n = true →
    forallb (free_of sel) children = true.
Proof.
  induction n as [d|d|name0 attribs0 children0 IH] using node_induction;
    intros parents ps name attribs children Hin Hf; try done.
  rewrite elements_of_element in Hin. rewrite free_of_element in Hf.
  apply andb_true_iff in Hf as [_ Hf].
  destruct Hin as [Heq|Hin].
  - by inversion Heq; subst.
  - by apply (elements_free_on sel children0 IH (name0 :: parents) ps name attribs).
Qed.

Lemma all_elements_free (sel : selector) (doc : document) ps name attribs children :
  In (ps, Element name attribs children) (all_elements doc) →
  forallb (free_of sel) doc = true →
  forallb (free_of sel) children = true.
Proof.
  apply elements_free_on, Forall_forall. intros n _. apply elements_of_free.
Qed.

End Free.

(** ** The text that the readable-text walk reads *)

Section ReadableText.

Lemma forallb_filter_keeps {A : Type} (p q : A → bool) (l : list A) :
  forallb p l = true → forallb p (List.filter q l) = true.
Proof.
  induction l as [|x l IH]; [done|]. simpl. intros H.
  apply andb_true_iff in H as [H1 H2].
  destruct (q x); simpl; [rewrite H1|]; by apply IH.
Qed.

Lemma free_of_tag_name (t : jsstring) (c : node) :
  t ≠ SNil → free_of (Tag t) c = true → seqb (name_of c) t = false.
Proof.
  intros Ht H. destruct c as [d|d|name attribs children].
  - simpl. by destruct t.
  - simpl. by destruct t.
  - apply free_of_not_matches in H. exact H.
Qed.

Lemma remove_all_free_id (sels : list selector) :
  ∀ l : list node,
    Forall (λ s, forallb (free_of s) l = true) sels → remove_all sels l = l.
Proof.
  unfold remove_all. induction sels as [|a sels IH]; intros l H; [done|].
  apply Forall_cons in H as [Ha H]. simpl.
  rewrite remove_free_id by done. by apply IH.
Qed.

Lemma filtered_free (doc : document) (s : selector) ps name attribs children :
  In s readable_noise →
  In (ps, Element name attribs children)
     (body_find readable_tags (remove_all readable_noise doc)) →
  forallb (free_of s) children = true.
Proof.
  intros Hs Hin. apply filter_In in Hin as [Hin _].
  apply (all_elements_free s _ ps name attribs children Hin).
  by apply remove_all_free.
Qed.

Lemma deep_excluded_noise (s : selector) :
  In s deep_excluded → In s readable_noise.
Proof.
  unfold deep_excluded. intros Hs.
  repeat (destruct Hs as [<-|Hs];
          [unfold readable_noise; repeat (first [left; reflexivity | right])|]).
  destruct Hs.
Qed.

End ReadableText.

(** C3, as amended.  For every element that the readable-text walk
    visits, the text it reads is the text of the element's content without
    the [aside] children and without any [script], [style], [nav],
    [footer] or [header] subtree at any depth. *)
Theorem readable_text_excludes (doc : document) (parents : list jsstring)
    (name : jsstring) (attribs : gmap jsstring jsstring) (children : list node) :
  In (parents, Element name attribs children)
     (body_find readable_tags (remove_all readable_noise doc)) →
  text_without_children readable_excluded children
  = text (remove_all deep_excluded (List.filter not_aside children)).
Proof.
  intros Hin.
  assert (∀ s, In s deep_excluded → forallb (free_of s) children = true) as Hfree.
  { intros s Hs.
    apply (filtered_free doc s parents name attribs children); [|done].
    by apply deep_excluded_noise. }
  rewrite remove_all_free_id.
  - unfold text_without_children. f_equal. apply filter_ext_in.
    intros c Hc. unfold not_aside, readable_excluded, tag_in. simpl.
    assert (∀ t, In (Tag t) deep_excluded → t ≠ SNil →
                 seqb (name_of c) t = false) as Hname.
    { intros t Ht Hne. apply free_of_tag_name; [done|].
      specialize (Hfree (Tag t) Ht).
      rewrite forallb_forall in Hfree. by apply Hfree. }
    clear Hin Hfree Hc.
    rewrite (Hname "script"), (Hname "style"), (Hname "nav"),
      (Hname "footer"), (Hname "header");
      try discriminate;
      try (unfold deep_excluded; repeat (first [left; reflexivity | right])).
    simpl. rewrite orb_false_r. reflexivity.
  - apply List.Forall_forall. intros s Hs. apply forallb_filter_keeps.
    apply Hfree. exact Hs.
Qed.

Lemma readable_text_excludes_witness :
  text_without_children readable_excluded
    [ Sample.el "div" [ Sample.el "aside" [ Text "side" ] ];
      Text "Main text body long enough" ]
  = text (remove_all deep_excluded
            (List.filter not_aside
               [ Sample.el "div" [ Sample.el "aside" [ Text "side" ] ];
                 Text "Main text body long enough" ])).
Proof.
  apply (readable_text_excludes Sample.nested_aside_page ["body"; "html"]
           "section" ∅).
  vm_compute. left. reflexivity.
Defined.

(** C3, as stated, fails: an [aside] that is not a direct child of the
    visited element keeps its text in the output; only an [aside] child is
    left out. *)
Lemma nested_aside_text_kept :
  ¬ (∀ (doc : document) parents name attribs children,
        In (parents, Element name attribs children)
           (body_find readable_tags (remove_all readable_noise doc)) →
        text_without_children readable_excluded children
        = text (remove_all (map Tag readable_excluded) children))
  ∧ (∀ U : Unicode,
        extractText Sample.nested_aside_page = "sideMain text body long enough")
  ∧ (∀ U : Unicode,
        extractText Sample.child_aside_page = "Main text body long enough").
Proof.
  split; [|split; intros U; run_sample].
  intros H.
  specialize (H Sample.nested_aside_page ["body"; "html"] "section" ∅
                [ Sample.el "div" [ Sample.el "aside" [ Text "side" ] ];
                  Text "Main text body long enough" ]).
  assert (Hin : In (["body"; "html"],
                    Element "section" ∅
                      [ Sample.el "div" [ Sample.el "aside" [ Text "side" ] ];
                        Text "Main text body long enough" ])
                   (body_find readable_tags
                      (remove_all readable_noise Sample.nested_aside_page)))
    by (vm_compute; left; reflexivity).
  apply H in Hin. vm_compute in Hin. discriminate.
Qed.

(** ** The seen set of the readable-text walk *)

Section Seen.

Context {U : Unicode}.

(** A block that is too short or already seen leaves the state as it is. *)
Lemma readable_block_dropped (st : walk_state) (tagName text : jsstring) :
  slength text < 3 ∨ toLowerCase text ∈ seen st →
  readable_block st tagName text = st.
Proof.
  intros H. unfold readable_block.
  destruct (slength text <? 3) eqn:Hlen; [done|].
  destruct H as [H|H].
  - apply Nat.ltb_ge in Hlen. lia.
  - by rewrite (bool_decide_eq_true_2 _ H).
Qed.

(** A fresh block of three or more characters is registered and
    formatted. *)
Lemma readable_block_fresh (st : walk_state) (tagName text : jsstring) :
  3 ≤ slength text → toLowerCase text ∉ seen st →
  readable_block st tagName text
  = WalkState (lines st ++ readable_format tagName text)
      ({[ toLowerCase text ]} ∪ seen st).
Proof.
  intros Hlen Hnew. unfold readable_block.
  destruct (slength text <? 3) eqn:E.
  - apply Nat.ltb_lt in E. lia.
  - by rewrite (bool_decide_eq_false_2 _ Hnew).
Qed.

Lemma readable_block_seen_mono (st : walk_state) (tagName text : jsstring) :
  seen st ⊆ seen (readable_block st tagName text).
Proof.
  unfold readable_block.
  destruct (_ || _); [done|]. simpl. set_solver.
Qed.

Lemma readable_each_seen_mono (st : walk_state) (c : list jsstring * node) :
  seen st ⊆ seen (readable_each st c).
Proof.
  unfold readable_each. destruct (snd c) as [d|d|name attribs children]; try done.
  destruct (readable_skip _ _); [done|].
  destruct (negb _); [done|]. apply readable_block_seen_mono.
Qed.

Lemma readable_walk_seen_mono (cs : list (list jsstring * node)) :
  ∀ st, seen st ⊆ seen (fold_left readable_each cs st).
Proof.
  induction cs as [|c cs IH]; intros st; [done|].
  simpl. etrans; [apply (readable_each_seen_mono st c)|apply IH].
Qed.

(** After a block was handled, its lower-cased text is in the seen set,
    unless it is shorter than three characters. *)
Lemma readable_block_registers (st : walk_state) (tagName text : jsstring) :
  3 ≤ slength text →
  toLowerCase text ∈ seen (readable_block st tagName text).
Proof.
  intros Hlen. destruct (decide (toLowerCase text ∈ seen st)) as [Hin|Hnew].
  - by rewrite readable_block_dropped by (by right).
  - rewrite readable_block_fresh by done. simpl. set_solver.
Qed.

(** A later block is dropped when an earlier block of three or more
    characters had the same text up to letter case. *)
Lemma later_duplicate_dropped (st : walk_state) (tag1 t1 tag2 t2 : jsstring)
    (between : list (list jsstring * node)) :
  3 ≤ slength t1 →
  toLowerCase t1 = toLowerCase t2 →
  readable_block
    (fold_left readable_each between (readable_block st tag1 t1)) tag2 t2
  = fold_left readable_each between (readable_block st tag1 t1).
Proof.
  intros Hlen Heq. apply readable_block_dropped. right.
  rewrite <- Heq.
  apply (readable_walk_seen_mono between (readable_block st tag1 t1)).
  by apply readable_block_registers.
Qed.

(** So is a later block after an earlier one that was too short, unless
    lower-casing made the two texts differ in length across the limit. *)
Lemma later_block_dropped (st : walk_state) (tag1 t1 tag2 t2 : jsstring)
    (between : list (list jsstring * node)) :
  toLowerCase t1 = toLowerCase t2 →
  (slength t1 < 3 → slength t2 < 3) →
  readable_block
    (fold_left readable_each between (readable_block st tag1 t1)) tag2 t2
  = fold_left readable_each between (readable_block st tag1 t1).
Proof.
  intros Heq Hshort.
  destruct (le_lt_dec 3 (slength t1)) as [Hlen|Hlen].
  - by apply later_duplicate_dropped.
  - apply readable_block_dropped. left. by apply Hshort.
Qed.

Lemma readable_format_short_paragraph (tagName text : jsstring) :
  tag_in ["p"; "article"; "section"; "main"] tagName = true →
  slength text ≤ 15 →
  readable_format tagName text = [].
Proof.
  intros Htag Hlen. unfold readable_format.
  assert ((15 <? slength text) = false) as -> by (apply Nat.ltb_ge; lia).
  unfold tag_in in Htag. simpl in Htag.
  repeat (apply orb_true_iff in Htag as [Htag|Htag];
          [apply seqb_eq in Htag; subst; reflexivity|]).
  discriminate.
Qed.

(** The callback of the readable-text walk on an element that is not
    skipped and has text. *)
Lemma readable_each_block (st : walk_state) (parents : list jsstring)
    (name : jsstring) (attribs : gmap jsstring jsstring) (children : list node) :
  readable_skip parents (toLowerCase name) = false →
  truthy (readable_raw_text children) = true →
  readable_each st (parents, Element name attribs children)
  = readable_block st (toLowerCase name)
      (trim (replace_spaces (readable_raw_text children))).
Proof. intros Hskip Htext. unfold readable_each. simpl. by rewrite Hskip, Htext. Qed.

(** A paragraph block of at most 15 characters adds no line, seen or
    not. *)
Lemma readable_block_short_paragraph (st : walk_state) (tagName text : jsstring) :
  tag_in ["p"; "article"; "section"; "main"] tagName = true →
  slength text ≤ 15 →
  lines (readable_block st tagName text) = lines st.
Proof.
  intros Htag Hlen. unfold readable_block. destruct (_ || _); [done|].
  simpl. rewrite readable_format_short_paragraph by done. apply app_nil_r.
Qed.

(** A list item whose text is a no-break space and two letters has a
    normalised text of two characters and is dropped. *)
Lemma nbsp_item_dropped (st : walk_state) (parents : list jsstring) :
  readable_each st
    (parents, Sample.el "li" [ Text (Sample.nbsp +:+ "ab") ])
  = st.
Proof.
  unfold readable_each, Sample.el. cbn [snd fst].
  destruct (readable_skip _ _); [done|].
  change (readable_raw_text [Text (Sample.nbsp +:+ "ab")]) with "ab".
  cbn [truthy negb]. apply readable_block_dropped. left. simpl. lia.
Qed.

Lemma normalized_text_truthy (raw : jsstring) :
  1 ≤ slength (trim (replace_spaces raw)) → truthy raw = true.
Proof. destruct raw; [simpl; lia|done]. Qed.

End Seen.

(** C4.  When two blocks of the readable-text walk have texts that are
    equal up to letter case, the later one is dropped entirely: it adds no
    line and leaves the seen set as it is; the first one, when it is new
    and has three or more characters, gives the lines of its tag.  The
    lengths are in UTF-16 code units and the case mapping is that of the
    platform, which may change the length of a text: the later block is
    dropped unless the first one was too short to be registered and the
    later one is not, which two blocks that the walk selected, or two
    texts of equal length, never are.  "Hello World" followed by "hello
    world" is output once, and so is, with the case mappings of the
    Latin-1 letters, "École" followed by "école". *)
Theorem duplicate_block_dropped `{Unicode} (st : walk_state)
    (tag1 t1 tag2 t2 : jsstring) (between : list (list jsstring * node)) :
  toLowerCase t1 = toLowerCase t2 →
  (slength t1 < 3 → slength t2 < 3) →
  let st1 := readable_block st tag1 t1 in
  let st2 := fold_left readable_each between st1 in
  readable_block st2 tag2 t2 = st2
  ∧ (3 ≤ slength t1 → toLowerCase t1 ∉ seen st →
     lines st1 = lines st ++ readable_format tag1 t1)
  ∧ toLowerCase "Hello World" = toLowerCase "hello world"
  ∧ extractText Sample.hello_page = "- Hello World"
  ∧ @extractText sample_case Sample.ecole_page = "- École".
Proof.
  intros Heq Hshort st1 st2. split; [by apply later_block_dropped|].
  split; [|split; [|split; [run_sample|reflexivity]]].
  - intros Hlen Hnew. unfold st1. by rewrite readable_block_fresh.
  - by rewrite !toLowerCase_ascii.
Qed.

Lemma duplicate_block_dropped_witness :
  @readable_block sample_case
    (@readable_block sample_case (WalkState [] ∅) "li" "Hello World")
    "li" "hello world"
  = @readable_block sample_case (WalkState [] ∅) "li" "Hello World".
Proof.
  refine (proj1 (@duplicate_block_dropped sample_case (WalkState [] ∅) "li"
                   "Hello World" "li" "hello world" [] eq_refl _)).
  simpl. lia.
Defined.

(** C5. Every element of the readable-text walk that is not skipped and
    whose normalised text has three or more characters and was not seen is
    put, lower-cased, into the seen set whatever its tag gives; so a p,
    article, section or main block of 3 to 15 characters adds no line and
    still makes every later block with the same text up to letter case be
    dropped.  The length is that of the text without the white space of
    ECMAScript at its ends, in UTF-16 code units: a list item of a
    no-break space and two letters is not registered. *)
Theorem seen_before_format `{Unicode} (st : walk_state)
    (parents : list jsstring) (name : jsstring)
    (attribs : gmap jsstring jsstring) (children : list node) :
  let tagName := toLowerCase name in
  let text := trim (replace_spaces (readable_raw_text children)) in
  readable_skip parents tagName = false →
  3 ≤ slength text → toLowerCase text ∉ seen st →
  let st1 := readable_each st (parents, Element name attribs children) in
  seen st1 = {[ toLowerCase text ]} ∪ seen st
  ∧ (tag_in ["p"; "article"; "section"; "main"] tagName = true →
     slength text ≤ 15 → lines st1 = lines st)
  ∧ (∀ (between : list (list jsstring * node)) (tag2 t2 : jsstring),
        toLowerCase t2 = toLowerCase text →
        let st2 := fold_left readable_each between st1 in
        readable_block st2 tag2 t2 = st2)
  ∧ extractText Sample.short_page = SNil
  ∧ (∀ (st0 : walk_state) (ps : list jsstring),
        readable_each st0 (ps, Sample.el "li" [ Text (Sample.nbsp +:+ "ab") ])
        = st0).
Proof.
  intros tagName text Hskip Hlen Hnew st1.
  assert (st1 = readable_block st tagName text) as ->.
  { unfold st1. apply readable_each_block; [exact Hskip|].
    apply normalized_text_truthy. fold text. lia. }
  split; [by rewrite readable_block_fresh|].
  split; [|split; [|split; [run_sample|apply nbsp_item_dropped]]].
  - intros Htag Hshort. rewrite readable_block_fresh by done. simpl.
    rewrite readable_format_short_paragraph by done. apply app_nil_r.
  - intros between tag2 t2 Heq. by apply later_duplicate_dropped.
Qed.

Lemma seen_before_format_witness :
  seen (@readable_each sample_case (WalkState [] ∅)
          (["body"; "html"], Element "p" ∅ [ Text "short text" ]))
  = {[ @toLowerCase sample_case "short text" ]} ∪ ∅.
Proof.
  apply (@seen_before_format sample_case (WalkState [] ∅) ["body"; "html"]
           "p" ∅ [ Text "short text" ]).
  - reflexivity.
  - simpl. lia.
  - simpl. set_solver.
Defined.

(** ** Length gates and the skip rules *)

Section Gates.

Context {U : Unicode}.

Lemma readable_format_paragraph (text : jsstring) :
  readable_format "p" text
  = if 15 <? slength text then [ wordWrap text 80; SNil ] else [].
Proof. reflexivity. Qed.

Lemma structured_format_block (tagName text : jsstring) :
  tagName = "p" ∨ tagName = "div" →
  structured_format tagName text
  = if 20 <? slength text then [ text; SNil ] else [].
Proof. by intros [->| ->]. Qed.

(** With the case mappings of the Latin-1 letters, the heading "café" is
    output in upper case over four [=] signs, one for each character. *)
Lemma accented_heading_sample :
  @extractText sample_case Sample.cafe_page = "CAFÉ" +:+ nl +:+ "====".
Proof. reflexivity. Qed.

End Gates.

(** C6. In the readable-text pipeline a p block of exactly 15
    characters adds no line and a new one of 16 characters adds its wrapped
    text and a blank line; in the structured pipeline a p or div block of
    exactly 20 characters adds no line and one of 21 characters adds its
    text and a blank line.  The sample paragraphs of 15, 16, 20 and 21
    characters give the empty output or their text.  Characters are UTF-16
    code units: a paragraph of eight accented letters, or of ten and a
    digit, adds no line. *)
Theorem length_gating `{Unicode} (st : walk_state) (ls : list jsstring)
    (text : jsstring) :
  (slength text = 15 → lines (readable_block st "p" text) = lines st)
  ∧ (slength text = 16 → toLowerCase text ∉ seen st →
     lines (readable_block st "p" text)
     = lines st ++ [ wordWrap text 80; SNil ])
  ∧ (∀ tagName, tagName = "p" ∨ tagName = "div" →
       (slength text = 20 → structured_block ls tagName text = ls)
       ∧ (slength text = 21 →
          structured_block ls tagName text = ls ++ [ text; SNil ]))
  ∧ extractText (Sample.page [ Sample.el "p" [ Text Sample.chars15 ] ])
    = SNil
  ∧ extractText (Sample.page [ Sample.el "p" [ Text Sample.chars16 ] ])
    = Sample.chars16
  ∧ extractStructuredText
      (Sample.page [ Sample.el "p" [ Text Sample.chars20 ];
                     Sample.el "div" [ Text Sample.chars20 ] ])
    = SNil
  ∧ extractStructuredText (Sample.page [ Sample.el "p" [ Text Sample.chars21 ] ])
    = Sample.chars21
  ∧ extractStructuredText (Sample.page [ Sample.el "div" [ Text Sample.chars21 ] ])
    = Sample.chars21
  ∧ (∀ st0 : walk_state,
        lines (readable_block st0 "p" Sample.accented8) = lines st0)
  ∧ (∀ ls0 : list jsstring,
        structured_block ls0 "p" Sample.accented11 = ls0).
Proof.
  split; [|split; [|split; [|repeat split; try run_sample]]].
  4:{ intros st0. apply readable_block_short_paragraph; [done|]. simpl. lia. }
  4:{ intros ls0. apply app_nil_r. }
  - intros Hlen. apply readable_block_short_paragraph; [done|lia].
  - intros Hlen Hnew. rewrite readable_block_fresh by (done || lia). simpl.
    by rewrite readable_format_paragraph, Hlen.
  - intros tagName Htag. unfold structured_block.
    rewrite (structured_format_block tagName text Htag).
    split; intros ->; [apply app_nil_r|reflexivity].
Qed.

Lemma length_gating_witness :
  lines (@readable_block sample_case (WalkState [] ∅) "p" Sample.chars16)
  = [] ++ [ wordWrap Sample.chars16 80; SNil ].
Proof.
  apply (@length_gating sample_case (WalkState [] ∅) [] Sample.chars16).
  - reflexivity.
  - simpl. set_solver.
Defined.

(** ** Text of nested elements *)

Section Nested.

Lemma part_of_refl (s : jsstring) : part_of s s.
Proof. exists SNil, SNil. by rewrite app_empty_r. Qed.

Lemma part_of_empty (s : jsstring) : part_of SNil s.
Proof. by exists SNil, s. Qed.

Lemma part_of_trans (a b c : jsstring) : part_of a b → part_of b c → part_of a c.
Proof.
  intros [b1 [a1 ->]] [b2 [a2 ->]]. exists (b2 +:+ b1), (a1 +:+ a2).
  by rewrite !app_assoc_str.
Qed.

Lemma part_of_app_l (x y : jsstring) : part_of x (x +:+ y).
Proof. by exists SNil, y. Qed.

Lemma part_of_app_r (x y : jsstring) : part_of y (x +:+ y).
Proof. exists x, SNil. by rewrite app_empty_r. Qed.

Lemma part_of_middle (p x q : jsstring) : part_of x (p +:+ x +:+ q).
Proof. by exists p, q. Qed.

Lemma text_member (m : node) (l : list node) :
  In m l → part_of (textContent m) (text l).
Proof.
  induction l as [|c l IH]; [done|]. intros [->|Hin].
  - apply (part_of_app_l (textContent m) (text l)).
  - apply (part_of_trans _ (text l)); [by apply IH|].
    apply (part_of_app_r (textContent c) (text l)).
Qed.

(** The text of an element contains the text of every element below
    it. *)
Lemma elements_of_part (m : node) :
  ∀ ps0 qs n, In (qs, n) (elements_of ps0 m) →
              part_of (textContent n) (textContent m).
Proof.
  induction m as [d|d|name attribs children IH] using node_induction;
    intros ps0 qs n Hin; try done.
  rewrite elements_of_element in Hin. destruct Hin as [Heq|Hin].
  - inversion Heq. apply part_of_refl.
  - apply in_elements_list in Hin as [c [Hc Hin]].
    rewrite List.Forall_forall in IH.
    apply (part_of_trans _ (textContent c)); [by apply (IH c Hc (name :: ps0) qs n)|].
    rewrite text_is_textContent. by apply text_member.
Qed.

Lemma elements_list_part (ps0 : list jsstring) (l : list node)
    (qs : list jsstring) (n : node) :
  In (qs, n) (elements_list ps0 l) → part_of (textContent n) (text l).
Proof.
  intros Hin. apply in_elements_list in Hin as [m [Hm Hin]].
  apply (part_of_trans _ (textContent m));
    [by apply (elements_of_part m ps0 qs n)|by apply text_member].
Qed.

Lemma filter_all {A : Type} (p : A → bool) (l : list A) :
  forallb p l = true → List.filter p l = l.
Proof.
  induction l as [|x l IH]; [done|]. simpl. intros Hl.
  apply andb_true_iff in Hl as [Hx Hl]. by rewrite Hx, IH.
Qed.

(** Without script and style elements among the children, the clone
    that the structured walk reads is the element itself. *)
Lemma text_without_script_style (children : list node) :
  forallb (free_of (Tag "script")) children = true →
  forallb (free_of (Tag "style")) children = true →
  text_without_children structured_excluded children = text children.
Proof.
  intros H1 H2. unfold text_without_children. f_equal. apply filter_all.
  apply forallb_forall. intros c Hc.
  rewrite forallb_forall in H1, H2.
  unfold structured_excluded, tag_in. simpl.
  rewrite (free_of_tag_name "script" c), (free_of_tag_name "style" c);
    auto; discriminate.
Qed.

Lemma body_find_free (sels : list selector) (tags : list jsstring)
    (doc : document) (s : selector) ps name attribs children :
  In s sels →
  In (ps, Element name attribs children)
     (body_find tags (remove_all sels doc)) →
  forallb (free_of s) children = true.
Proof.
  intros Hs Hin. apply filter_In in Hin as [Hin _].
  apply (all_elements_free s _ ps name attribs children Hin).
  by apply remove_all_free.
Qed.

Lemma nested_free (sel : selector) (parents : list jsstring) (l : list node)
    ps name attribs children :
  In (ps, Element name attribs children) (elements_list parents l) →
  forallb (free_of sel) l = true →
  forallb (free_of sel) children = true.
Proof.
  apply elements_free_on, Forall_forall. intros n _. apply elements_of_free.
Qed.

(** *** White-space normalisation keeps parts *)

Lemma replace_spaces_app (x y : jsstring) :
  ∀ b, ∃ b', replace_spaces_from b (x +:+ y)
             = replace_spaces_from b x +:+ replace_spaces_from b' y.
Proof.
  induction x as [|c x IH]; intros b; [by exists b|].
  rewrite app_cons. simpl. destruct (is_space c).
  - destruct (IH true) as [b' ->]. exists b'. by destruct b.
  - destruct (IH false) as [b' ->]. by exists b'.
Qed.

Lemma replace_spaces_run (s : jsstring) (b : bool) :
  ∃ l, trimStart l = SNil
       ∧ replace_spaces_from false s = l +:+ replace_spaces_from b s.
Proof.
  destruct b; [|by exists SNil].
  destruct s as [|c s]; [by exists SNil|]. simpl.
  destruct (is_space c); [|by exists SNil].
  by exists " ".
Qed.

Lemma trimStart_blank_app (l s : jsstring) :
  trimStart l = SNil → trimStart (l +:+ s) = trimStart s.
Proof.
  induction l as [|c l IH]; [done|]. rewrite app_cons. simpl.
  destruct (is_space c); [done|discriminate].
Qed.

Lemma trim_replace_spaces_run (s : jsstring) (b : bool) :
  trim (replace_spaces_from b s) = trim (replace_spaces s).
Proof.
  unfold replace_spaces, trim.
  destruct (replace_spaces_run s b) as [l [Hl ->]].
  by rewrite trimStart_blank_app.
Qed.

Lemma trimStart_part (s : jsstring) : part_of (trimStart s) s.
Proof.
  induction s as [|c s IH]; [apply part_of_refl|]. simpl.
  destruct (is_space c); [|apply part_of_refl].
  apply (part_of_trans _ s); [done|].
  apply (part_of_app_r (SCons c SNil) s).
Qed.

Lemma trimEnd_prefix (s : jsstring) : ∃ after, s = trimEnd s +:+ after.
Proof.
  induction s as [|c s [after IH]]; [by exists SNil|]. simpl.
  destruct (trimEnd s) as [|d t].
  - destruct (is_space c); [by exists (SCons c s)|]. by exists s.
  - exists after. by rewrite IH at 1.
Qed.

Lemma trimEnd_part (s : jsstring) : part_of (trimEnd s) s.
Proof.
  destruct (trimEnd_prefix s) as [after Hs]. rewrite Hs at 2.
  apply part_of_app_l.
Qed.

Lemma trim_part (s : jsstring) : part_of (trim s) s.
Proof.
  apply (part_of_trans _ (trimStart s)); [apply trimEnd_part|apply trimStart_part].
Qed.

Lemma trimStart_fixed (s : jsstring) : no_leading_space s → trimStart s = s.
Proof.
  destruct s as [|c s]; [done|]. intros H. simpl.
  by rewrite (H c s eq_refl).
Qed.

Lemma trimEnd_fixed (s : jsstring) : no_trailing_space s → trimEnd s = s.
Proof.
  induction s as [|c s IH]; intros H; [done|].
  simpl. rewrite IH by (by apply (no_trailing_space_tail c)).
  destruct s as [|d t]; [|done].
  by rewrite (H SNil c eq_refl).
Qed.

Lemma trim_fixed (s : jsstring) :
  no_leading_space s → no_trailing_space s → trim s = s.
Proof.
  intros H1 H2. unfold trim. rewrite (trimStart_fixed s H1). by apply trimEnd_fixed.
Qed.

Lemma trim_trim (s : jsstring) : trim (trim s) = trim s.
Proof.
  apply trim_fixed.
  - apply trimEnd_no_leading, trimStart_no_leading.
  - apply trimEnd_no_trailing.
Qed.

Lemma trim_no_leading (s : jsstring) : no_leading_space (trim s).
Proof. apply trimEnd_no_leading, trimStart_no_leading. Qed.

Lemma trim_no_trailing (s : jsstring) : no_trailing_space (trim s).
Proof. apply trimEnd_no_trailing. Qed.

Lemma trimStart_keeps (core : jsstring) (before after : jsstring) :
  core ≠ SNil → no_leading_space core →
  ∃ before', trimStart (before +:+ core +:+ after) = before' +:+ core +:+ after.
Proof.
  intros Hne Hlead. induction before as [|c before IH].
  - exists SNil. destruct core as [|d core]; [done|].
    rewrite !app_empty_l, app_cons. simpl. by rewrite (Hlead d core eq_refl).
  - rewrite app_cons. simpl. destruct (is_space c); [done|].
    by exists (SCons c before).
Qed.

Lemma trimEnd_app (x y : jsstring) :
  trimEnd (x +:+ y)
  = match trimEnd y with
    | SNil => trimEnd x
    | t => x +:+ t
    end.
Proof.
  induction x as [|c x IH].
  - rewrite app_empty_l. by destruct (trimEnd y).
  - rewrite app_cons. simpl. rewrite IH.
    destruct (trimEnd y) as [|d t]; [done|].
    by destruct x.
Qed.

Lemma trimEnd_keeps (core : jsstring) (before after : jsstring) :
  core ≠ SNil → no_trailing_space core →
  ∃ after', trimEnd (before +:+ core +:+ after) = before +:+ core +:+ after'.
Proof.
  intros Hne Htrail.
  assert (∃ after', trimEnd (core +:+ after) = core +:+ after'
                    ∧ core +:+ after' ≠ SNil) as [after' [Heq Hne']].
  { rewrite trimEnd_app. destruct (trimEnd after) as [|d t].
    - exists SNil. rewrite trimEnd_fixed, app_empty_r by done. done.
    - exists (SCons d t). split; [done|]. by destruct core. }
  exists after'. rewrite trimEnd_app, Heq.
  by destruct (core +:+ after').
Qed.

(** Trimming a string does not reach a part that is not empty and has no
    white space at its ends. *)
Lemma trim_keeps (core whole : jsstring) :
  core ≠ SNil → no_leading_space core → no_trailing_space core →
  part_of core whole → part_of core (trim whole).
Proof.
  intros Hne Hlead Htrail [before [after ->]]. unfold trim.
  destruct (trimStart_keeps core before after Hne Hlead) as [before' ->].
  destruct (trimEnd_keeps core before' after Hne Htrail) as [after' ->].
  apply part_of_middle.
Qed.

Lemma replace_spaces_part_run (x whole : jsstring) :
  part_of x whole →
  ∃ b, part_of (replace_spaces_from b x) (replace_spaces whole).
Proof.
  intros [before [after ->]]. unfold replace_spaces.
  destruct (replace_spaces_app before (x +:+ after) false) as [b ->].
  destruct (replace_spaces_app x after b) as [b' ->].
  exists b. apply part_of_middle.
Qed.

(** The cleaned text of a string contains the cleaned text of each of its
    parts. *)
Lemma cleaned_part (x y : jsstring) :
  part_of x y →
  part_of (trim (replace_spaces (trim x))) (trim (replace_spaces (trim y))).
Proof.
  intros Hxy.
  destruct (decide (trim x = SNil)) as [Hx|Hx]; [rewrite Hx; apply part_of_empty|].
  destruct (decide (trim (replace_spaces (trim x)) = SNil)) as [Hc|Hc];
    [rewrite Hc; apply part_of_empty|].
  assert (part_of (trim x) (trim y)) as Hparts.
  { apply trim_keeps; [done|apply trim_no_leading|apply trim_no_trailing|].
    apply (part_of_trans _ x); [apply trim_part|done]. }
  destruct (replace_spaces_part_run (trim x) (trim y) Hparts) as [b Hb].
  apply trim_keeps; [done|apply trim_no_leading|apply trim_no_trailing|].
  apply (part_of_trans _ (replace_spaces_from b (trim x))); [|done].
  rewrite <- (trim_replace_spaces_run (trim x) b). apply trim_part.
Qed.

(** The texts that the structured walk reads for an element that it
    visits and for an element below it. *)
Lemma nested_text_folded (doc : document) (ps qs : list jsstring)
    (name name' : jsstring) (attribs attribs' : gmap jsstring jsstring)
    (children children' : list node) :
  In (ps, Element name attribs children)
     (body_find structured_tags (remove_all structured_noise doc)) →
  In (qs, Element name' attribs' children')
     (elements_list (name :: ps) children) →
  part_of (text children')
    (text_without_children structured_excluded children)
  ∧ part_of (trim (replace_spaces (structured_raw_text children')))
      (trim (replace_spaces (structured_raw_text children))).
Proof.
  intros Hp Hn.
  assert (∀ s, In s [Tag "script"; Tag "style"] →
               forallb (free_of s) children = true) as Hfree.
  { intros s Hs.
    apply (body_find_free structured_noise structured_tags doc s ps name attribs);
      [|done].
    unfold structured_noise. destruct Hs as [<-|[<-|[]]]; [by left|right; by left]. }
  assert (∀ s, In s [Tag "script"; Tag "style"] →
               forallb (free_of s) children' = true) as Hfree'.
  { intros s Hs.
    apply (nested_free s (name :: ps) children qs name' attribs' children' Hn).
    by apply Hfree. }
  assert (part_of (text children') (text children)) as Hpart.
  { apply (elements_list_part (name :: ps) children qs
             (Element name' attribs' children') Hn). }
  unfold structured_raw_text.
  rewrite !text_without_script_style
    by (first [apply Hfree|apply Hfree']; simpl; auto).
  split; [done|]. by apply cleaned_part.
Qed.

End Nested.

Section Headings.

Context {U : Unicode}.

(** A heading of the second level is handled whatever its ancestors
    are. *)
Lemma readable_each_h2 (st : walk_state) (parents : list jsstring)
    (attribs : gmap jsstring jsstring) (children : list node) :
  truthy (readable_raw_text children) = true →
  readable_each st (parents, Element "h2" attribs children)
  = readable_block st "h2" (trim (replace_spaces (readable_raw_text children))).
Proof.
  intros Htext. rewrite readable_each_block.
  - by rewrite (lower_fixed "h2").
  - rewrite (lower_fixed "h2") by done. unfold readable_skip. apply andb_false_r.
  - done.
Qed.

Lemma readable_each_h2_empty (st : walk_state) (parents : list jsstring)
    (attribs : gmap jsstring jsstring) (children : list node) :
  truthy (readable_raw_text children) = false →
  readable_each st (parents, Element "h2" attribs children) = st.
Proof.
  intros Htext. unfold readable_each. cbn [snd fst].
  destruct (readable_skip _ _); [done|]. by rewrite Htext.
Qed.

Lemma heading_seen_dropped (st : walk_state) (parents : list jsstring)
    (attribs : gmap jsstring jsstring) (children : list node) :
  toLowerCase (trim (replace_spaces (readable_raw_text children))) ∈ seen st →
  readable_each st (parents, Element "h2" attribs children) = st.
Proof.
  intros Hseen.
  destruct (truthy (readable_raw_text children)) eqn:Htext.
  - rewrite readable_each_h2 by done. apply readable_block_dropped. by right.
  - by apply readable_each_h2_empty.
Qed.

End Headings.

(** C8, as stated, fails: in
    [<blockquote><h2>Inner Heading</h2></blockquote>] the blockquote is
    visited first and registers the text, so the heading is dropped as a
    duplicate and the output is the quoted line alone.  It is not so that
    an h2 of three or more characters inside a blockquote adds its lines
    in every state of the walk. *)
Lemma quoted_heading_dropped :
  (∀ U : Unicode,
      extractText Sample.quoted_heading_page
      = dquote +:+ "Inner Heading" +:+ dquote)
  ∧ (∀ U : Unicode,
        ¬ (∀ (st : walk_state) (parents : list jsstring)
             (attribs : gmap jsstring jsstring) (children : list node),
              let text := trim (replace_spaces (readable_raw_text children)) in
              3 ≤ slength text →
              lines (readable_each st ("blockquote" :: parents,
                                       Element "h2" attribs children))
              = lines st ++ [ SNil; text;
                              repeat_str "-" (Nat.min (slength text) 40);
                              SNil ])).
Proof.
  split; intros U; [run_sample|].
  intros Hall.
  specialize (Hall (readable_block (WalkState [] ∅) "blockquote" "Inner Heading")
                ["body"; "html"] ∅ [ Text "Inner Heading" ]).
  cbv zeta in Hall.
  change (trim (replace_spaces (readable_raw_text [Text "Inner Heading"])))
    with "Inner Heading" in Hall.
  assert (3 ≤ slength "Inner Heading") as Hlen by (simpl; lia).
  specialize (Hall Hlen).
  rewrite heading_seen_dropped in Hall.
  - apply (f_equal length) in Hall. rewrite length_app in Hall.
    simpl in Hall. lia.
  - change (trim (replace_spaces (readable_raw_text [Text "Inner Heading"])))
      with "Inner Heading".
    by apply readable_block_registers.
Qed.

(** C8, as amended.  In the structured pipeline a span adds no line,
    whatever its ancestors, and the text read for an element that the walk
    visits, a p for one, contains the text of every element below it, raw
    and cleaned; below a p a span is not skipped and a div is.  In the
    readable-text pipeline an h2 is never skipped for its ancestors, where
    a p below a blockquote is: inside a blockquote, an h2 text of three or
    more characters that was not seen gives a blank line, the text, the
    underline and a blank line, and an h2 text that was seen gives
    nothing, as when the blockquote before it had the same text. *)
Theorem skip_rules `{Unicode} :
  (∀ (ls : list jsstring) (parents : list jsstring)
     (attribs : gmap jsstring jsstring) (children : list node),
      structured_each ls (parents, Element "span" attribs children) = ls)
  ∧ (∀ (doc : document) (ps qs : list jsstring) (name name' : jsstring)
       (attribs attribs' : gmap jsstring jsstring)
       (children children' : list node),
        In (ps, Element name attribs children)
           (body_find structured_tags (remove_all structured_noise doc)) →
        In (qs, Element name' attribs' children')
           (elements_list (name :: ps) children) →
        part_of (text children')
          (text_without_children structured_excluded children)
        ∧ part_of (trim (replace_spaces (structured_raw_text children')))
            (trim (replace_spaces (structured_raw_text children))))
  ∧ extractStructuredText Sample.span_page = "Some inner span text follows here"
  ∧ (∀ parents : list jsstring,
        structured_skip ("p" :: parents) "span" = false
        ∧ structured_skip ("p" :: parents) "div" = true)
  ∧ (∀ parents : list jsstring,
        readable_skip parents "h2" = false
        ∧ readable_skip ("blockquote" :: parents) "p" = true)
  ∧ (∀ (st : walk_state) (parents : list jsstring)
       (attribs : gmap jsstring jsstring) (children : list node),
        let text := trim (replace_spaces (readable_raw_text children)) in
        let here := ("blockquote" :: parents, Element "h2" attribs children) in
        (3 ≤ slength text → toLowerCase text ∉ seen st →
         lines (readable_each st here)
         = lines st ++ [ SNil; text;
                         repeat_str "-" (Nat.min (slength text) 40);
                         SNil ])
        ∧ (toLowerCase text ∈ seen st → readable_each st here = st)
        ∧ (3 ≤ slength text →
           readable_each (readable_block st "blockquote" text) here
           = readable_block st "blockquote" text))
  ∧ extractText Sample.quote_page
    = dquote +:+ "Quoted words Inner Heading" +:+ dquote +:+ nl +:+ nl
      +:+ "Inner Heading" +:+ nl +:+ "-------------".
Proof.
  split; [|split; [|split; [run_sample|split; [done|split; [|split; [|run_sample]]]]]].
  - intros ls parents attribs children. unfold structured_each.
    cbn [snd fst]. rewrite (lower_fixed "span") by done.
    assert (structured_skip parents "span" = false) as ->
      by (unfold structured_skip; apply andb_false_r).
    destruct (negb _); [reflexivity|]. unfold structured_block.
    destruct (_ <? 2); [reflexivity|]. apply app_nil_r.
  - intros doc ps qs name name' attribs attribs' children children'.
    apply nested_text_folded.
  - intros parents. split; [|reflexivity].
    unfold readable_skip. apply andb_false_r.
  - intros st parents attribs children text here.
    split; [|split].
    + intros Hlen Hnew. unfold here. rewrite readable_each_h2.
      * by rewrite readable_block_fresh.
      * apply normalized_text_truthy. fold text. lia.
    + intros Hseen. by apply heading_seen_dropped.
    + intros Hlen. apply heading_seen_dropped.
      by apply readable_block_registers.
Qed.

Lemma skip_rules_witness :
  part_of
    (trim (replace_spaces (structured_raw_text [ Text "inner span text" ])))
    (trim (replace_spaces
             (structured_raw_text
                [ Text "Some "; Sample.el "span" [ Text "inner span text" ];
                  Text " follows here" ]))).
Proof.
  apply (proj1 (proj2 (@skip_rules sample_case)) Sample.span_page
           ["body"; "html"] ["p"; "body"; "html"] "p" "span" ∅ ∅
           [ Text "Some "; Sample.el "span" [ Text "inner span text" ];
             Text " follows here" ]
           [ Text "inner span text" ]).
  - vm_compute. left. reflexivity.
  - vm_compute. left. reflexivity.
Defined.

(** ** The titled sample page *)

(** C1, as stated, fails: the heading text "Hi" has fewer than three
    characters, so the walk drops it, and the title sits in the head, which
    is removed before the title is read.  The output is the paragraph
    alone; were the title element inside the body, or beside it, the title
    block would come out, still without a heading. *)
Lemma titled_page_output :
  (∀ U : Unicode, extractText Sample.titled_page = Sample.paragraph_text)
  ∧ (∀ U : Unicode,
        extractText Sample.titled_body_page
        = "Doc" +:+ nl +:+ "===" +:+ nl +:+ nl +:+ Sample.paragraph_text)
  ∧ (∀ U : Unicode,
        extractText Sample.titled_flat_page
        = "Doc" +:+ nl +:+ "===" +:+ nl +:+ nl +:+ Sample.paragraph_text)
  ∧ (∀ (U : Unicode) (doc : document),
        In doc Sample.titled_pages →
        extractText doc ≠ Sample.title_heading_paragraph).
Proof.
  split; [|split; [|split]]; intros U; try run_sample.
  intros doc Hdoc. unfold Sample.titled_pages in Hdoc.
  repeat (destruct Hdoc as [<-|Hdoc];
          [rewrite extractText_sample by reflexivity; vm_compute; discriminate|]).
  destruct Hdoc.
Qed.

Section TitledPage.

Context {U : Unicode}.
Variable st : walk_state.
Hypothesis paragraph_new : toLowerCase Sample.paragraph_text ∉ seen st.

(** The walk over the heading "Hi" and the paragraph, under any
    ancestors that are no containers. *)
Lemma heading_paragraph_walk (parents : list jsstring) :
  existsb (tag_in readable_containers) parents = false →
  fold_left readable_each
    [ (parents, Sample.el "h1" [ Text "Hi" ]);
      (parents, Sample.el "p" [ Text Sample.paragraph_text ]) ] st
  = WalkState (lines st ++ [ Sample.paragraph_text; SNil ])
      ({[ toLowerCase Sample.paragraph_text ]} ∪ seen st).
Proof.
  intros Hparents. cbn [fold_left]. unfold Sample.el.
  assert (∀ tagName, readable_skip parents tagName = false) as Hskip.
  { intros tagName. unfold readable_skip. by rewrite Hparents. }
  assert (readable_each st (parents, Element "h1" ∅ [ Text "Hi" ]) = st) as ->.
  { rewrite readable_each_block by (apply Hskip || reflexivity).
    apply readable_block_dropped. left.
    change (trim (replace_spaces (readable_raw_text [Text "Hi"]))) with "Hi".
    simpl. lia. }
  rewrite (readable_each_block st) by (apply Hskip || reflexivity).
  rewrite (lower_fixed "p") by done.
  change (trim (replace_spaces (readable_raw_text [Text Sample.paragraph_text])))
    with Sample.paragraph_text.
  rewrite readable_block_fresh; [reflexivity| |exact paragraph_new].
  simpl. lia.
Qed.

End TitledPage.

(** C1, as amended.  On the sample page, however its title was parsed,
    the walk of the readable-text pipeline, whatever the title step left in
    the line buffer, adds nothing for the heading "Hi" and adds the
    paragraph, word-wrapped to one line, and a blank line. *)
Theorem titled_page_walk `{Unicode} (doc : document) (st : walk_state) :
  In doc Sample.titled_pages →
  toLowerCase Sample.paragraph_text ∉ seen st →
  fold_left readable_each
    (body_find readable_tags (remove_all readable_noise doc)) st
  = WalkState (lines st ++ [ Sample.paragraph_text; SNil ])
      ({[ toLowerCase Sample.paragraph_text ]} ∪ seen st).
Proof.
  intros Hdoc Hnew. unfold Sample.titled_pages in Hdoc.
  destruct Hdoc as [<-|[<-|[<-|[]]]].
  - by apply (heading_paragraph_walk st Hnew ["body"; "html"]).
  - by apply (heading_paragraph_walk st Hnew ["body"; "html"]).
  - by apply (heading_paragraph_walk st Hnew ["body"]).
Qed.

Lemma titled_page_walk_witness :
  fold_left (@readable_each sample_case)
    (body_find readable_tags (remove_all readable_noise Sample.titled_page))
    (WalkState [] ∅)
  = WalkState ([] ++ [ Sample.paragraph_text; SNil ])
      ({[ @toLowerCase sample_case Sample.paragraph_text ]} ∪ ∅).
Proof.
  apply (@titled_page_walk sample_case Sample.titled_page (WalkState [] ∅)).
  - left. reflexivity.
  - simpl. set_solver.
Defined.

(** ** The request handler *)

Section Post.

Import Handler.

Context {U : Unicode}.
Variable new_URL : json → option URL.
Variable load : jsstring → document.
Variable beautifyHtml : jsstring → jsstring.
Variable null_message : jsstring.
Variable refusal_message : nat → jsstring.

Let handle := POST new_URL load beautifyHtml null_message refusal_message.

Lemma post_url_required (v : json) (url : option json) :
  destructure_url null_message v = inr url → falsy url = true →
  handle (inr v) = Return (Response 400 (ErrorBody "URL is required")).
Proof. intros Hv Hf. unfold handle, POST. by rewrite Hv, Hf. Qed.

Lemma post_invalid_url (v : json) (url : option json) :
  destructure_url null_message v = inr url → falsy url = false →
  (∀ parsed, url ≫= new_URL = Some parsed →
             protocol parsed ≠ "http:" ∧ protocol parsed ≠ "https:") →
  handle (inr v) = Return (Response 400 (ErrorBody "Invalid URL format")).
Proof.
  intros Hv Hf Hbad. unfold handle, POST. rewrite Hv, Hf.
  destruct (url ≫= new_URL) as [parsed|] eqn:Hp; [|done].
  destruct (Hbad parsed eq_refl) as [H1 H2].
  apply seqb_neq in H1, H2.
  unfold tag_in. simpl. rewrite seqb_sym in H1, H2.
  rewrite (seqb_sym (protocol parsed)), H1.
  by rewrite (seqb_sym (protocol parsed)), H2.
Qed.

End Post.

(** C10, as amended.  When the body of the request is a JSON value other
    than [null]: a missing or falsy [url] gives status 400 with the error
    "URL is required"; a truthy [url] that does not parse, or parses with
    a protocol other than http: and https:, gives status 400 with the
    error "Invalid URL format".  In both cases the handler returns at
    once, with no fetch and no extraction. *)
Theorem post_validates `{Unicode}
    (new_URL : Handler.json → option Handler.URL)
    (load : jsstring → document) (beautifyHtml : jsstring → jsstring)
    (null_message : jsstring) (refusal_message : nat → jsstring)
    (v : Handler.json) (url : option Handler.json) :
  Handler.destructure_url null_message v = inr url →
  (Handler.falsy url = true →
   Handler.returns_at_once
     (Handler.POST new_URL load beautifyHtml null_message refusal_message
        (inr v))
     (Handler.Response 400 (Handler.ErrorBody "URL is required")))
  ∧ (Handler.falsy url = false →
     (∀ parsed, url ≫= new_URL = Some parsed →
                Handler.protocol parsed ≠ "http:"
                ∧ Handler.protocol parsed ≠ "https:") →
     Handler.returns_at_once
       (Handler.POST new_URL load beautifyHtml null_message refusal_message
          (inr v))
       (Handler.Response 400 (Handler.ErrorBody "Invalid URL format"))).
Proof.
  intros Hv. split.
  - intros Hf. by apply (post_url_required _ _ _ _ _ v url).
  - intros Hf Hbad. by apply (post_invalid_url _ _ _ _ _ v url).
Qed.

Lemma post_validates_witness :
  Handler.returns_at_once
    (@Handler.POST sample_case
       (λ _, Some (Handler.MkURL "ftp:" "ftp://example.org/"))
       (λ _, []) (λ s, s) SNil (λ _, SNil)
       (inr (Handler.JObject [ ("url", Handler.JString "ftp://example.org") ])))
    (Handler.Response 400 (Handler.ErrorBody "Invalid URL format")).
Proof.
  apply (@post_validates sample_case _ _ _ _ _
           (Handler.JObject [ ("url", Handler.JString "ftp://example.org") ])
           (Some (Handler.JString "ftp://example.org")));
    [reflexivity|reflexivity|].
  intros parsed Hp. simpl in Hp. inversion Hp. by split.
Defined.

(** C10, as stated, fails: a body that is the JSON value [null] has no
    [url] field and the handler answers with status 500, and the empty
    string is a [url] that is no URL and the handler answers "URL is
    required". *)
Lemma post_not_always_invalid_format :
  (∀ (U : Unicode) new_URL load beautifyHtml null_message refusal_message,
      Handler.POST new_URL load beautifyHtml null_message refusal_message
        (inr Handler.JNull)
      = Handler.Return (Handler.Response 500 (Handler.ErrorBody null_message)))
  ∧ (∀ (U : Unicode) new_URL load beautifyHtml null_message refusal_message,
        Handler.POST new_URL load beautifyHtml null_message refusal_message
          (inr (Handler.JObject [ ("url", Handler.JString SNil) ]))
        = Handler.Return
            (Handler.Response 400 (Handler.ErrorBody "URL is required"))).
Proof. split; reflexivity. Qed.

(** * Further properties of the code *)

(** ** Splitting, joining and wrapping *)

Section SplitJoin.

Lemma join_cons_cons (sep x y : jsstring) (l : list jsstring) :
  join sep (x :: y :: l) = x +:+ sep +:+ join sep (y :: l).
Proof. reflexivity. Qed.

Lemma join_app (sep : jsstring) (a b : list jsstring) :
  a ≠ [] → b ≠ [] → join sep (a ++ b) = join sep a +:+ sep +:+ join sep b.
Proof.
  intros Ha Hb. induction a as [|x a IH]; [done|].
  destruct a as [|y a].
  - destruct b as [|z b]; [done|]. reflexivity.
  - change ((x :: y :: a) ++ b) with (x :: y :: (a ++ b)).
    rewrite !join_cons_cons.
    change (y :: a ++ b) with ((y :: a) ++ b). rewrite IH by done.
    by rewrite !app_assoc_str.
Qed.

Lemma join_concat (sep : jsstring) (groups : list (list jsstring)) :
  Forall (λ g, g ≠ []) groups →
  join sep (map (join sep) groups) = join sep (concat groups).
Proof.
  induction 1 as [|g gs Hg Hgs IH]; [done|].
  destruct gs as [|g' gs].
  - simpl. by rewrite app_nil_r.
  - change (map (join sep) (g :: g' :: gs))
      with (join sep g :: join sep g' :: map (join sep) gs).
    rewrite join_cons_cons.
    change (join sep g' :: map (join sep) gs) with (map (join sep) (g' :: gs)).
    rewrite IH. change (concat (g :: g' :: gs)) with (g ++ concat (g' :: gs)).
    rewrite join_app; [done|done|].
    apply Forall_cons in Hgs as [Hg' _]. simpl. by destruct g'.
Qed.

Lemma greedy_pack_groups_nonempty (width : nat) (words : list jsstring) :
  ∀ g, Forall (λ l, l ≠ []) (Spec.greedy_pack width g words).
Proof.
  induction words as [|w rest IH]; intros g.
  - destruct g; simpl; by repeat constructor.
  - destruct g as [|x g]; [apply IH|].
    change (Spec.greedy_pack width (x :: g) (w :: rest))
      with (if slength (join " " ((x :: g) ++ [w])) <=? width
            then Spec.greedy_pack width ((x :: g) ++ [w]) rest
            else (x :: g) :: Spec.greedy_pack width [w] rest).
    destruct (_ <=? width); [apply IH|]. constructor; [done|apply IH].
Qed.

Lemma length_join_prefix (sep : jsstring) (a b : list jsstring) :
  slength (join sep a) ≤ slength (join sep (a ++ b)).
Proof.
  destruct a as [|x a]; [simpl; lia|].
  destruct b as [|y b]; [by rewrite app_nil_r|].
  rewrite join_app by done. rewrite length_app_str. lia.
Qed.

(** Words that fit on one line are packed into one line. *)
Lemma greedy_pack_one_line (width : nat) (rest : list jsstring) :
  ∀ g, g ≠ [] → slength (join " " (g ++ rest)) ≤ width →
       Spec.greedy_pack width g rest = [g ++ rest].
Proof.
  induction rest as [|w rest IH]; intros g Hg Hlen.
  - rewrite app_nil_r. by destruct g.
  - destruct g as [|x g]; [done|].
    change (Spec.greedy_pack width (x :: g) (w :: rest))
      with (if slength (join " " ((x :: g) ++ [w])) <=? width
            then Spec.greedy_pack width ((x :: g) ++ [w]) rest
            else (x :: g) :: Spec.greedy_pack width [w] rest).
    assert ((x :: g) ++ w :: rest = ((x :: g) ++ [w]) ++ rest) as Happ
      by (by rewrite <- app_assoc).
    rewrite Happ in Hlen |- *.
    pose proof (length_join_prefix " " ((x :: g) ++ [w]) rest) as Hpre.
    destruct (_ <=? width) eqn:E.
    + apply IH; [|done]. by destruct g.
    + apply Nat.leb_gt in E. lia.
Qed.

Lemma wordWrap_step_lines_nonempty (width : nat) (words : list jsstring) :
  ∀ st, Forall nonempty (fst st) →
        Forall nonempty (fst (fold_left (wordWrap_step width) words st)).
Proof.
  induction words as [|w rest IH]; intros [ls cur] Hls; [done|].
  cbn [fold_left]. apply IH. rewrite wordWrap_step_eq.
  destruct (_ <=? width); [done|]. simpl.
  destruct cur as [|c cur]; [done|]. simpl.
  apply Forall_app. split; [done|]. by repeat constructor.
Qed.

Lemma join_split_space (s : jsstring) : join " " (split_space s) = s.
Proof.
  induction s as [|c s IH]; [done|].
  simpl. destruct (N.eqb c SPACE) eqn:Hc.
  - apply N.eqb_eq in Hc. subst c.
    pose proof (split_space_not_nil s) as Hnil.
    destruct (split_space s) as [|w ws]; [done|].
    rewrite join_cons_cons, IH. reflexivity.
  - pose proof (split_space_not_nil s) as Hnil.
    destruct (split_space s) as [|w ws]; [done|].
    destruct ws as [|w' ws].
    + simpl in *. by rewrite IH.
    + rewrite join_cons_cons in *. rewrite app_cons. by rewrite IH.
Qed.

End SplitJoin.

(** X1. Joining the pieces of [split(" ")] with single spaces gives the
    string back, for every string. *)
Theorem split_space_join (s : jsstring) : join " " (split_space s) = s.
Proof. apply join_split_space. Qed.

(** X2. Wrapping loses nothing: the lines that [wordWrap] builds for a
    normalised text, joined by single spaces, are the text. *)
Theorem wordWrap_keeps_text (text : jsstring) (width : nat) :
  Spec.normalized text → join " " (wordWrap_lines text width) = text.
Proof.
  intros Hnorm. destruct (normalized_words text Hnorm) as [->|Hwords].
  { by destruct width. }
  rewrite wordWrap_lines_greedy by done.
  change (map Spec.line_text) with (map (join " ")).
  rewrite join_concat by apply greedy_pack_groups_nonempty.
  rewrite greedy_pack_concat. apply join_split_space.
Qed.

Lemma wordWrap_keeps_text_witness :
  join " " (wordWrap_lines "one two three" 7) = "one two three".
Proof. exact (wordWrap_keeps_text "one two three" 7 eq_refl). Defined.

(** X3. A normalised text that is not longer than the width is returned
    as it is. *)
Theorem wordWrap_short_text (text : jsstring) (width : nat) :
  Spec.normalized text → slength text ≤ width →
  wordWrap text width = text.
Proof.
  intros Hnorm Hlen. destruct (normalized_words text Hnorm) as [->|Hwords].
  { by destruct width. }
  unfold wordWrap. rewrite wordWrap_lines_greedy by done.
  pose proof (join_split_space text) as Hjoin.
  pose proof (split_space_not_nil text) as Hnil.
  destruct (split_space text) as [|w ws]; [done|].
  change (Spec.greedy_pack width [] (w :: ws))
    with (Spec.greedy_pack width [w] ws).
  rewrite greedy_pack_one_line; [|done|].
  - simpl. exact Hjoin.
  - change ([w] ++ ws) with (w :: ws). rewrite Hjoin. exact Hlen.
Qed.

Lemma wordWrap_short_text_witness :
  wordWrap "one two three" 13 = "one two three".
Proof.
  apply (wordWrap_short_text "one two three" 13); [reflexivity|simpl; lia].
Defined.

(** X4. For every text and width, normalised or not, no line that
    [wordWrap] builds is empty. *)
Theorem wordWrap_no_empty_line (text : jsstring) (width : nat) :
  Forall nonempty (wordWrap_lines text width).
Proof.
  unfold wordWrap_lines.
  pose proof (wordWrap_step_lines_nonempty width (split_space text)
                ([], SNil) (List.Forall_nil _)) as H.
  destruct (fold_left _ _ _) as [ls cur]. simpl in H.
  destruct cur as [|c cur]; [done|]. simpl.
  apply Forall_app. split; [done|]. by repeat constructor.
Qed.

(** ** Cleaning twice *)

Section Idempotence.

Lemma replace_spaces_blank_separated (s : jsstring) :
  ∀ b, blank_separated b (replace_spaces_from b s) = true.
Proof.
  induction s as [|c s IH]; intros b; [done|].
  simpl. destruct (is_space c) eqn:Hc.
  - destruct b; [apply IH|]. simpl. apply IH.
  - simpl. rewrite Hc. apply IH.
Qed.

Lemma blank_separated_fixed (s : jsstring) :
  ∀ b, blank_separated b s = true → replace_spaces_from b s = s.
Proof.
  induction s as [|c s IH]; intros b H; [done|].
  simpl in *. destruct (is_space c) eqn:Hc.
  - apply andb_true_iff in H as [H H3]. apply andb_true_iff in H as [H1 H2].
    apply N.eqb_eq in H1. subst c. destruct b; [done|].
    by rewrite IH.
  - by rewrite IH.
Qed.

Lemma blank_separated_weaken (s : jsstring) (b : bool) :
  blank_separated b s = true → blank_separated false s = true.
Proof.
  destruct s as [|c s]; [done|]. simpl.
  destruct (is_space c); [|done].
  intros H. apply andb_true_iff in H as [H H3]. apply andb_true_iff in H as [H1 _].
  by rewrite H1, H3.
Qed.

Lemma trimStart_blank_separated (s : jsstring) :
  blank_separated false s = true → blank_separated false (trimStart s) = true.
Proof.
  induction s as [|c s IH]; intros H; [done|].
  simpl. destruct (is_space c) eqn:Hc; [|done].
  apply IH. simpl in H. rewrite Hc in H.
  apply andb_true_iff in H as [_ H]. by apply (blank_separated_weaken s true).
Qed.

Lemma trimEnd_blank_separated (s : jsstring) :
  ∀ b, blank_separated b s = true → blank_separated b (trimEnd s) = true.
Proof.
  induction s as [|c s IH]; intros b H; [done|].
  simpl in *. destruct (trimEnd s) as [|d t] eqn:Ht.
  - destruct (is_space c) eqn:Hc; [done|]. simpl. by rewrite Hc.
  - change (blank_separated b (SCons c (SCons d t)))
      with (if is_space c
            then N.eqb c SPACE && negb b && blank_separated true (SCons d t)
            else blank_separated false (SCons d t)).
    destruct (is_space c).
    + apply andb_true_iff in H as [H H3]. rewrite H, andb_true_l. by apply IH.
    + by apply IH.
Qed.

Lemma below3_fixed (s : jsstring) :
  ∀ run, newline_runs_below3 run s = true → replace_newlines_from run s = s.
Proof.
  induction s as [|c s IH]; intros run H; [done|].
  simpl in *. destruct (N.eqb c LF).
  - apply andb_true_iff in H as [H1 H2]. rewrite H1. by rewrite IH.
  - by rewrite IH.
Qed.

Lemma trim_below3 (s : jsstring) :
  newline_runs_below3 0 s = true → newline_runs_below3 0 (trim s) = true.
Proof. intros H. by apply trimEnd_below3, trimStart_below3. Qed.

Lemma replace_newlines_below3 (s : jsstring) :
  newline_runs_below3 0 (replace_newlines s) = true.
Proof. apply replace_newlines_from_below3. lia. Qed.

End Idempotence.

(** X5. The white-space clean-up of the walkers is idempotent: a text that
    was cleaned is left as it is by a second clean-up, so the text that
    reaches the formatting and [wordWrap] is normalised. *)
Theorem normalisation_idempotent (rawText : jsstring) :
  Spec.normalized (trim (replace_spaces rawText)).
Proof.
  unfold Spec.normalized.
  assert (blank_separated false (trim (replace_spaces rawText)) = true) as H.
  { apply trimEnd_blank_separated, trimStart_blank_separated,
      replace_spaces_blank_separated. }
  unfold replace_spaces at 1. rewrite (blank_separated_fixed _ false H).
  apply trim_trim.
Qed.

(** X6. The final clean-up of either pipeline is idempotent: an output,
    taken as the only line of a buffer and cleaned again, is unchanged. *)
Theorem assemble_idempotent (ls : list jsstring) :
  readable_assemble [ readable_assemble ls ] = readable_assemble ls
  ∧ structured_assemble [ structured_assemble ls ] = structured_assemble ls.
Proof.
  split.
  - unfold readable_assemble at 1. change (join nl [readable_assemble ls])
      with (readable_assemble ls).
    assert (newline_runs_below3 0 (readable_assemble ls) = true) as H.
    { unfold readable_assemble, strip_edges.
      apply trim_below3. fold (trim (replace_newlines (join nl ls))).
      apply trim_below3, replace_newlines_below3. }
    unfold replace_newlines. rewrite (below3_fixed _ 0 H).
    unfold strip_edges. fold (trim (readable_assemble ls)).
    unfold readable_assemble at 1 2. by rewrite !trim_trim.
  - unfold structured_assemble at 1. change (join nl [structured_assemble ls])
      with (structured_assemble ls).
    assert (newline_runs_below3 0 (structured_assemble ls) = true) as H.
    { unfold structured_assemble. apply trim_below3, replace_newlines_below3. }
    unfold replace_newlines. rewrite (below3_fixed _ 0 H).
    unfold structured_assemble. apply trim_trim.
Qed.

(** ** Ancestors and elements of a forest *)

Section Elements.

(** The ancestors of an element below a node extend those of the node. *)
Lemma elements_of_parents (m : node) :
  ∀ ps0 ps n, In (ps, n) (elements_of ps0 m) → ∃ pre, ps = pre ++ ps0.
Proof.
  induction m as [d|d|name attribs children IH] using node_induction;
    intros ps0 ps n Hin; try done.
  rewrite elements_of_element in Hin. destruct Hin as [Heq|Hin].
  - inversion Heq; subst. by exists [].
  - apply in_elements_list in Hin as [c [Hc Hin]].
    rewrite List.Forall_forall in IH.
    destruct (IH c Hc (name :: ps0) ps n Hin) as [pre ->].
    exists (pre ++ [name]). by rewrite <- app_assoc.
Qed.

(** Below an element, its tag is among the ancestors. *)
Lemma elements_below (name : jsstring) (ps0 : list jsstring) (children : list node)
    (ps : list jsstring) (n : node) :
  In (ps, n) (elements_list (name :: ps0) children) → In name ps.
Proof.
  intros Hin. apply in_elements_list in Hin as [c [_ Hin]].
  apply elements_of_parents in Hin as [pre ->].
  apply in_app_iff. right. by left.
Qed.

(** Every element of a free forest is free. *)
Lemma elements_of_free_self (sel : selector) (m : node) :
  ∀ ps0 ps n, In (ps, n) (elements_of ps0 m) →
              free_of sel m = true → free_of sel n = true.
Proof.
  induction m as [d|d|name attribs children IH] using node_induction;
    intros ps0 ps n Hin Hf; try done.
  rewrite elements_of_element in Hin. destruct Hin as [Heq|Hin].
  - by inversion Heq; subst.
  - apply in_elements_list in Hin as [c [Hc Hin]].
    rewrite List.Forall_forall in IH.
    apply (IH c Hc (name :: ps0) ps n Hin).
    rewrite free_of_element in Hf. apply andb_true_iff in Hf as [_ Hf].
    rewrite forallb_forall in Hf. by apply Hf.
Qed.

Lemma free_forest_no_match (sel : selector) (doc : document) :
  forallb (free_of sel) doc = true → ¬ some_element_matches sel doc.
Proof.
  intros Hf [[ps n] [Hin Hm]]. simpl in Hm.
  apply in_elements_list in Hin as [m [Hm' Hin]].
  rewrite forallb_forall in Hf.
  pose proof (elements_of_free_self sel m [] ps n Hin (Hf m Hm')) as Hn.
  apply free_of_not_matches in Hn. congruence.
Qed.

(** In a forest without elements of tag [t], reached through ancestors
    other than [t], no element has an ancestor [t]. *)
Lemma elements_of_no_ancestor (t : jsstring) (m : node) :
  ∀ ps0 ps n, In (ps, n) (elements_of ps0 m) →
              free_of (Tag t) m = true →
              existsb (seqb t) ps0 = false →
              existsb (seqb t) ps = false.
Proof.
  induction m as [d|d|name attribs children IH] using node_induction;
    intros ps0 ps n Hin Hf Hps0; try done.
  rewrite elements_of_element in Hin. destruct Hin as [Heq|Hin].
  - by inversion Heq; subst.
  - apply in_elements_list in Hin as [c [Hc Hin]].
    rewrite List.Forall_forall in IH.
    rewrite free_of_element in Hf. apply andb_true_iff in Hf as [Hname Hf].
    rewrite forallb_forall in Hf.
    apply (IH c Hc (name :: ps0) ps n Hin (Hf c Hc)).
    simpl. rewrite Hps0, orb_false_r. simpl in Hname.
    apply negb_true_iff in Hname. by rewrite seqb_sym.
Qed.

Lemma filter_none {A : Type} (p : A → bool) (l : list A) :
  (∀ x, In x l → p x = false) → List.filter p l = [].
Proof.
  induction l as [|x l IH]; intros H; [done|].
  simpl. rewrite (H x) by (by left). apply IH. intros y Hy. apply H. by right.
Qed.

Lemma body_find_no_body (tags : list jsstring) (doc : document) :
  forallb (free_of (Tag "body")) doc = true → body_find tags doc = [].
Proof.
  intros Hf. unfold body_find. apply filter_none. intros [ps n] Hin.
  apply in_elements_list in Hin as [m [Hm Hin]].
  rewrite forallb_forall in Hf. cbn [fst snd].
  by rewrite (elements_of_no_ancestor "body" m [] ps n Hin (Hf m Hm) eq_refl).
Qed.

End Elements.

(** ** The noise filter *)

(** X7. Whatever one of the [.remove()] calls of a pipeline removes does
    not reach its output: detaching the elements that match one of its
    selectors beforehand leaves the output as it is. *)
Theorem noise_never_reaches_output `{Unicode} (doc : document)
    (sel : selector) :
  (In sel readable_noise → extractText (remove sel doc) = extractText doc)
  ∧ (In sel structured_noise →
     extractStructuredText (remove sel doc) = extractStructuredText doc).
Proof.
  split; intros Hsel.
  - unfold extractText, readable_walk. by rewrite remove_all_absorbs.
  - unfold extractStructuredText, structured_walk. by rewrite remove_all_absorbs.
Qed.

Lemma noise_never_reaches_output_witness :
  @extractStructuredText sample_case
    (remove (HasAttr "hidden") Sample.span_page)
  = @extractStructuredText sample_case Sample.span_page.
Proof.
  apply (@noise_never_reaches_output sample_case Sample.span_page
           (HasAttr "hidden")).
  unfold structured_noise. do 6 right. left. reflexivity.
Defined.

(** X8. After the [.remove()] calls of a pipeline no element of the
    document matches any of their selectors, in whatever order they ran,
    and running them again changes nothing. *)
Theorem noise_filter_complete (doc : document) :
  (∀ sel, In sel readable_noise →
          ¬ some_element_matches sel (remove_all readable_noise doc))
  ∧ (∀ sel, In sel structured_noise →
            ¬ some_element_matches sel (remove_all structured_noise doc))
  ∧ remove_all readable_noise (remove_all readable_noise doc)
    = remove_all readable_noise doc
  ∧ remove_all structured_noise (remove_all structured_noise doc)
    = remove_all structured_noise doc.
Proof.
  split; [|split; [|split]].
  - intros sel Hsel. by apply free_forest_no_match, remove_all_free.
  - intros sel Hsel. by apply free_forest_no_match, remove_all_free.
  - apply remove_all_free_id, List.Forall_forall.
    intros sel Hsel. by apply remove_all_free.
  - apply remove_all_free_id, List.Forall_forall.
    intros sel Hsel. by apply remove_all_free.
Qed.

Lemma noise_filter_complete_witness :
  ¬ some_element_matches (Tag "head")
      (remove_all readable_noise Sample.titled_page).
Proof.
  apply (noise_filter_complete Sample.titled_page).
  unfold readable_noise. do 5 right. left. reflexivity.
Defined.

(** ** The walks *)

Section Walks.

Context {U : Unicode}.

Lemma readable_block_appends (st : walk_state) (tagName t : jsstring) :
  ∃ added, lines (readable_block st tagName t) = lines st ++ added.
Proof.
  unfold readable_block. destruct (_ || _).
  - exists []. by rewrite app_nil_r.
  - by exists (readable_format tagName t).
Qed.

Lemma readable_each_appends (st : walk_state) (c : list jsstring * node) :
  ∃ added, lines (readable_each st c) = lines st ++ added.
Proof.
  assert (∃ added, lines st = lines st ++ added) as Hsame
    by (exists []; by rewrite app_nil_r).
  unfold readable_each. destruct (snd c) as [d|d|name attribs children]; try done.
  destruct (readable_skip _ _); [done|].
  destruct (negb _); [done|]. apply readable_block_appends.
Qed.

Lemma structured_each_appends (ls : list jsstring) (c : list jsstring * node) :
  ∃ added, structured_each ls c = ls ++ added.
Proof.
  assert (∃ added, ls = ls ++ added) as Hsame
    by (exists []; by rewrite app_nil_r).
  unfold structured_each. destruct (snd c) as [d|d|name attribs children]; try done.
  destruct (structured_skip _ _); [done|].
  destruct (negb _); [done|]. unfold structured_block.
  destruct (_ <? 2); [done|]. by eexists.
Qed.

Lemma container_skips (containers : list jsstring) (container : jsstring)
    (ps : list jsstring) :
  tag_in containers container = true → In container ps →
  existsb (tag_in containers) ps = true.
Proof. intros Hc Hin. apply existsb_exists. by exists container. Qed.

End Walks.

(** X9. The walks only append: the lines that were in the buffer before a
    run of callbacks are still its first lines afterwards, and the seen set
    of the readable-text walk only grows. *)
Theorem walks_only_append `{Unicode} (cs : list (list jsstring * node))
    (st : walk_state) (ls : list jsstring) :
  (∃ added, lines (fold_left readable_each cs st) = lines st ++ added)
  ∧ seen st ⊆ seen (fold_left readable_each cs st)
  ∧ (∃ added, fold_left structured_each cs ls = ls ++ added).
Proof.
  split; [|split; [apply readable_walk_seen_mono|]].
  - revert st. induction cs as [|c cs IH]; intros st.
    + exists []. by rewrite app_nil_r.
    + simpl. destruct (IH (readable_each st c)) as [a2 ->].
      destruct (readable_each_appends st c) as [a1 ->].
      exists (a1 ++ a2). by rewrite <- app_assoc.
  - revert ls. induction cs as [|c cs IH]; intros ls.
    + exists []. by rewrite app_nil_r.
    + simpl. destruct (IH (structured_each ls c)) as [a2 ->].
      destruct (structured_each_appends ls c) as [a1 ->].
      exists (a1 ++ a2). by rewrite <- app_assoc.
Qed.

(** X10. The title is registered as seen: in the readable-text pipeline a
    block whose text is the title up to letter case is dropped, wherever
    it comes in the walk. *)
Theorem title_suppresses_equal_block `{Unicode} (doc : document)
    (between : list (list jsstring * node)) (tagName t : jsstring) :
  let filtered := remove_all readable_noise doc in
  let title := trim (text (select "title" filtered)) in
  truthy title = true →
  toLowerCase t = toLowerCase title →
  let st := fold_left readable_each between (readable_title filtered) in
  readable_block st tagName t = st.
Proof.
  intros filtered title Htitle Heq st.
  apply readable_block_dropped. right. rewrite Heq.
  apply (readable_walk_seen_mono between (readable_title filtered)).
  unfold readable_title. fold filtered. fold title. rewrite Htitle.
  cbn [seen]. apply elem_of_singleton_2. reflexivity.
Qed.

Lemma title_suppresses_equal_block_witness :
  @readable_block sample_case
    (@readable_title sample_case
       (remove_all readable_noise Sample.titled_body_page))
    "h1" "DOC"
  = @readable_title sample_case
      (remove_all readable_noise Sample.titled_body_page).
Proof.
  apply (@title_suppresses_equal_block sample_case Sample.titled_body_page []
           "h1" "DOC");
    reflexivity.
Defined.

(** X11. Below a container element, at any depth, the walks skip every
    element that is not exempt: the readable-text walk skips all but
    headings below p, li, td, th, blockquote and figcaption, and the
    structured walk skips all but a and span below p, li and h1 to h6.  A
    skipped element changes neither the lines nor the seen set. *)
Theorem nested_elements_skipped `{Unicode} (st : walk_state)
    (ls : list jsstring) (container : jsstring) (ps0 : list jsstring) (content : list node)
    (ps : list jsstring) (name : jsstring) (attribs : gmap jsstring jsstring)
    (children : list node) :
  In (ps, Element name attribs children)
     (elements_list (container :: ps0) content) →
  (tag_in readable_containers container = true →
   tag_in headings (toLowerCase name) = false →
   readable_each st (ps, Element name attribs children) = st)
  ∧ (tag_in structured_containers container = true →
     tag_in ["a"; "span"] (toLowerCase name) = false →
     structured_each ls (ps, Element name attribs children) = ls).
Proof.
  intros Hin. apply elements_below in Hin. split; intros Hc Hex.
  - unfold readable_each, readable_skip. cbn [fst snd].
    by rewrite (container_skips _ container ps Hc Hin), Hex.
  - unfold structured_each, structured_skip. cbn [fst snd].
    by rewrite (container_skips _ container ps Hc Hin), Hex.
Qed.

Lemma nested_elements_skipped_witness :
  @readable_each sample_case (WalkState [] ∅)
    (["ul"; "li"; "body"], Element "li" ∅ [ Text "an inner item" ])
  = WalkState [] ∅.
Proof.
  apply (@nested_elements_skipped sample_case (WalkState [] ∅) [] "li" ["body"]
           [ Sample.el "ul" [ Sample.el "li" [ Text "an inner item" ] ] ]
           ["ul"; "li"; "body"] "li" ∅ [ Text "an inner item" ]).
  - vm_compute. right. left. reflexivity.
  - reflexivity.
  - reflexivity.
Defined.

(** X12. In the structured pipeline the elements a, span, td and th are
    selected but add no line, whatever their text and ancestors. *)
Theorem structured_silent_elements `{Unicode} (ls : list jsstring)
    (parents : list jsstring) (name : jsstring) (attribs : gmap jsstring jsstring) (children : list node) :
  tag_in structured_silent_tags (toLowerCase name) = true →
  tag_in structured_tags (toLowerCase name) = true
  ∧ structured_each ls (parents, Element name attribs children) = ls.
Proof.
  intros Htag. unfold structured_silent_tags, tag_in in Htag. simpl in Htag.
  assert (toLowerCase name = "a" ∨ toLowerCase name = "span"
          ∨ toLowerCase name = "td" ∨ toLowerCase name = "th") as Hcases.
  { repeat (apply orb_true_iff in Htag as [Htag|Htag];
            [apply seqb_eq in Htag; tauto|]).
    discriminate. }
  unfold structured_each. cbn [fst snd].
  assert (∀ tagName t,
            tagName = "a" ∨ tagName = "span" ∨ tagName = "td" ∨ tagName = "th" →
            structured_block ls tagName t = ls) as Hblock.
  { intros tagName t Ht. unfold structured_block.
    destruct (_ <? 2); [reflexivity|].
    destruct Ht as [->|[->|[->| ->]]]; apply app_nil_r. }
  split.
  - destruct Hcases as [->|[->|[->| ->]]]; reflexivity.
  - destruct (structured_skip _ _); [reflexivity|].
    destruct (negb _); [reflexivity|]. by apply Hblock.
Qed.

Lemma structured_silent_elements_witness :
  @structured_each sample_case []
    (["tr"; "body"], Element "td" ∅ [ Text "a table cell" ])
  = [].
Proof.
  apply (@structured_silent_elements sample_case [] ["tr"; "body"] "td" ∅
           [ Text "a table cell" ]).
  reflexivity.
Defined.

(** X13. A document without any body element gives, in either pipeline,
    the title block alone. *)
Theorem no_body_only_title `{Unicode} (doc : document) :
  forallb (free_of (Tag "body")) doc = true →
  extractText doc
  = readable_assemble (lines (readable_title (remove_all readable_noise doc)))
  ∧ extractStructuredText doc
    = structured_assemble (structured_title (remove_all structured_noise doc)).
Proof.
  intros Hfree. split.
  - unfold extractText, readable_walk.
    by rewrite body_find_no_body by (by apply remove_all_keeps_free).
  - unfold extractStructuredText, structured_walk.
    by rewrite body_find_no_body by (by apply remove_all_keeps_free).
Qed.

Lemma no_body_only_title_witness :
  @extractStructuredText sample_case [ Sample.el "title" [ Text "Doc" ] ]
  = structured_assemble
      (structured_title
         (remove_all structured_noise [ Sample.el "title" [ Text "Doc" ] ])).
Proof.
  apply (@no_body_only_title sample_case [ Sample.el "title" [ Text "Doc" ] ]).
  reflexivity.
Defined.

(** ** The handler, from the request to the answer *)

#[local] Arguments extractText : simpl never.
#[local] Arguments extractStructuredText : simpl never.

Section ErrorAnswers.

Import Handler Session.

Lemma some_eq {A : Type} (x y : A) : Some x = Some y → x = y.
Proof. intros H. by injection H. Qed.

Lemma on_error_status (e : js_error) :
  ∃ msg, on_error e = Response (if timed_out e then 408 else 500) (ErrorBody msg).
Proof.
  unfold on_error, timed_out. destruct (instanceof_Error e); simpl.
  - destruct (_ || _); by eexists.
  - by eexists.
Qed.

Lemma on_error_is_error (e : js_error) :
  ∃ msg, body (on_error e) = ErrorBody msg
         ∧ (status (on_error e) = 408 ∨ status (on_error e) = 500).
Proof.
  destruct (on_error_status e) as [msg ->]. exists msg. split; [done|].
  simpl. destruct (timed_out e); auto.
Qed.

End ErrorAnswers.

Section AfterFetch.

Import Handler Session.

Context {U : Unicode}.
Variable load : jsstring → document.
Variable beautifyHtml : jsstring → jsstring.
Variable refusal_message : nat → jsstring.

(** The statuses that the [Response] constructor accepts with a body. *)
Lemma NextResponse_json_accepts (code : nat) (b : response_body) :
  200 ≤ code ≤ 599 → code ≠ 204 → code ≠ 205 → code ≠ 304 →
  NextResponse_json refusal_message code b = inr (Response code b).
Proof.
  intros [Hlo Hhi] H1 H2 H3. unfold NextResponse_json.
  assert ((code <? 200) = false) as -> by (apply Nat.ltb_ge; lia).
  assert ((599 <? code) = false) as -> by (apply Nat.ltb_ge; lia).
  cbn [orb existsb].
  apply Nat.eqb_neq in H1, H2, H3. by rewrite H1, H2, H3.
Qed.

(** The statuses that it refuses, and what the [catch] block makes of its
    error. *)
Lemma NextResponse_json_refuses (code : nat) (b : response_body) :
  code < 200 ∨ 599 < code ∨ code = 204 ∨ code = 205 ∨ code = 304 →
  ∃ e, NextResponse_json refusal_message code b = inl e
       ∧ on_error e = Response 500 (ErrorBody (refusal_message code)).
Proof.
  intros Hcode. unfold NextResponse_json.
  destruct ((code <? 200) || (599 <? code)) eqn:Hrange; [by eexists|].
  assert (existsb (Nat.eqb code) [204; 205; 304] = true) as ->; [|by eexists].
  apply orb_false_iff in Hrange as [Hlo Hhi].
  apply Nat.ltb_ge in Hlo, Hhi.
  destruct Hcode as [?|[?|[->|[->| ->]]]]; try lia; reflexivity.
Qed.

Lemma refused_or_accepted (code : nat) :
  (code < 200 ∨ 599 < code ∨ code = 204 ∨ code = 205 ∨ code = 304)
  ∨ (200 ≤ code ≤ 599 ∧ code ≠ 204 ∧ code ≠ 205 ∧ code ≠ 304).
Proof. lia. Qed.

Lemma respond_not_ok_refused (parsedUrl : URL) (code : nat)
    (statusText : jsstring) (text : js_error + jsstring) :
  code < 200 ∨ 599 < code ∨ code = 204 ∨ code = 205 ∨ code = 304 →
  respond_with load beautifyHtml refusal_message parsedUrl
    (FetchResolved false code statusText text)
  = Return (Response 500 (ErrorBody (refusal_message code))).
Proof.
  intros Hcode. unfold respond_with. cbn [negb].
  destruct (NextResponse_json_refuses code
              (ErrorBody ("Failed to fetch: " +:+ string_of_nat code
                          +:+ " " +:+ statusText)) Hcode) as [e [-> ->]].
  reflexivity.
Qed.

Lemma respond_not_ok_accepted (parsedUrl : URL) (code : nat)
    (statusText : jsstring) (text : js_error + jsstring) :
  200 ≤ code ≤ 599 ∧ code ≠ 204 ∧ code ≠ 205 ∧ code ≠ 304 →
  respond_with load beautifyHtml refusal_message parsedUrl
    (FetchResolved false code statusText text)
  = Return (Response code
              (ErrorBody ("Failed to fetch: " +:+ string_of_nat code
                          +:+ " " +:+ statusText))).
Proof.
  intros [Hrange [H1 [H2 H3]]]. unfold respond_with. cbn [negb].
  by rewrite NextResponse_json_accepts.
Qed.

(** What the code after the fetch answers. *)
Lemma respond_cases (parsedUrl : URL) (reply : fetch_reply) :
  (∃ r msg, respond_with load beautifyHtml refusal_message parsedUrl reply
            = Return r
            ∧ body r = ErrorBody msg
            ∧ (status r = 408 ∨ status r = 500
               ∨ ∃ code statusText text,
                   reply = FetchResolved false code statusText text
                   ∧ (200 ≤ code ≤ 599 ∧ code ≠ 204 ∧ code ≠ 205 ∧ code ≠ 304)
                   ∧ status r = code
                   ∧ msg = "Failed to fetch: " +:+ string_of_nat code
                           +:+ " " +:+ statusText))
  ∨ (∃ code statusText rawText,
        reply = FetchResolved true code statusText (inr rawText)
        ∧ respond_with load beautifyHtml refusal_message parsedUrl reply
          = Return (Response 200
                      (ResultBody (beautifyHtml rawText) rawText
                         (extractText (load rawText))
                         (extractStructuredText (load rawText))
                         (href parsedUrl) (slength rawText)
                         (slength (beautifyHtml rawText))
                         (slength (extractText (load rawText)))))).
Proof.
  destruct reply as [e|ok code statusText text].
  { left. destruct (on_error_is_error e) as [msg [Hb Hs]].
    exists (on_error e), msg. unfold respond_with. tauto. }
  destruct ok.
  2:{ left. destruct (refused_or_accepted code) as [Hcode|Hcode].
      - rewrite respond_not_ok_refused by done.
        eexists _, _. split; [reflexivity|]. cbn [body status].
        split; [reflexivity|]. right. by left.
      - rewrite respond_not_ok_accepted by done.
        eexists _, _. split; [reflexivity|]. cbn [body status].
        split; [reflexivity|]. right. right.
        exists code, statusText, text.
        split; [reflexivity|]. split; [exact Hcode|]. split; reflexivity. }
  unfold respond_with. cbn [negb].
  destruct text as [e|rawText].
  { left. destruct (on_error_is_error e) as [msg [Hb Hs]].
    exists (on_error e), msg. tauto. }
  right. by exists code, statusText, rawText.
Qed.

End AfterFetch.

Section Answers.

Import Handler Session.

Context {U : Unicode}.
Variable new_URL : json → option URL.
Variable load : jsstring → document.
Variable beautifyHtml : jsstring → jsstring.
Variable null_message : jsstring.
Variable refusal_message : nat → jsstring.

(** What [POST] does before any fetch. *)
Lemma post_cases (request : js_error + json) :
  (∃ r msg, POST new_URL load beautifyHtml null_message refusal_message request
            = Return r
            ∧ body r = ErrorBody msg
            ∧ (status r = 400 ∨ status r = 408 ∨ status r = 500))
  ∨ (∃ v url parsed,
        request = inr v
        ∧ destructure_url null_message v = inr (Some url)
        ∧ falsy (Some url) = false
        ∧ new_URL url = Some parsed
        ∧ (protocol parsed = "http:" ∨ protocol parsed = "https:")
        ∧ POST new_URL load beautifyHtml null_message refusal_message request
          = AwaitFetch (href parsed)
              (respond_with load beautifyHtml refusal_message parsed)).
Proof.
  unfold POST. destruct request as [e|v].
  { left. destruct (on_error_is_error e) as [msg [Hb Hs]].
    exists (on_error e), msg. tauto. }
  destruct (destructure_url null_message v) as [e|url] eqn:Hv.
  { left. destruct (on_error_is_error e) as [msg [Hb Hs]].
    exists (on_error e), msg. tauto. }
  destruct (falsy url) eqn:Hf.
  { left. eexists _, _. split; [reflexivity|]. simpl. auto. }
  destruct url as [url|]; [|discriminate]. simpl.
  destruct (new_URL url) as [parsed|] eqn:Hp.
  2:{ left. eexists _, _. split; [reflexivity|]. simpl. auto. }
  destruct (negb _) eqn:Hproto.
  { left. eexists _, _. split; [reflexivity|]. simpl. auto. }
  right. exists v, url, parsed. repeat split; try done.
  apply negb_false_iff in Hproto. unfold tag_in in Hproto. simpl in Hproto.
  rewrite orb_false_r in Hproto. apply orb_true_iff in Hproto.
  destruct Hproto as [H|H]; apply seqb_eq in H; auto.
Qed.

End Answers.

(** X14. The handler fetches at most once and only what it validated:
    either it returns at once with an error body and status 400, 408 or
    500, or the [url] of the body is truthy and parses to a URL with
    protocol http: or https:, the one fetch goes to that URL's string
    form, and whatever the fetch gives the handler then returns. *)
Theorem post_fetches_once `{Unicode}
    (new_URL : Handler.json → option Handler.URL)
    (load : jsstring → document) (beautifyHtml : jsstring → jsstring)
    (null_message : jsstring) (refusal_message : nat → jsstring)
    (request : Handler.js_error + Handler.json) :
  let h := Handler.POST new_URL load beautifyHtml null_message refusal_message
             request in
  ((∃ r msg, h = Handler.Return r ∧ Handler.body r = Handler.ErrorBody msg
             ∧ (Handler.status r = 400 ∨ Handler.status r = 408
                ∨ Handler.status r = 500))
   ∨ (∃ v url parsed continue,
         request = inr v
         ∧ Handler.destructure_url null_message v = inr (Some url)
         ∧ Handler.falsy (Some url) = false
         ∧ new_URL url = Some parsed
         ∧ (Handler.protocol parsed = "http:" ∨ Handler.protocol parsed = "https:")
         ∧ h = Handler.AwaitFetch (Handler.href parsed) continue
         ∧ ∀ reply, ∃ r, continue reply = Handler.Return r))
  ∧ ∀ reply, ∃ r, Session.answer h reply = Some r.
Proof.
  intros h. unfold h.
  destruct (post_cases new_URL load beautifyHtml null_message refusal_message
              request)
    as [[r [msg [Hr Hrest]]]|[v [url [parsed [Hreq [Hv [Hf [Hp [Hproto Hh]]]]]]]]].
  - split; [left; by exists r, msg|].
    intros reply. exists r. by rewrite Hr.
  - assert (∀ reply, ∃ r, Handler.respond_with load beautifyHtml
                            refusal_message parsed reply
                          = Handler.Return r) as Hcont.
    { intros reply.
      destruct (respond_cases load beautifyHtml refusal_message parsed reply)
        as [[r [msg [Hr _]]]|[code [st [rawText [_ Hr]]]]]; by eexists. }
    split.
    + right.
      exists v, url, parsed,
        (Handler.respond_with load beautifyHtml refusal_message parsed).
      repeat split; done.
    + intros reply. rewrite Hh. simpl. destruct (Hcont reply) as [r ->].
      by exists r.
Qed.



(** ** The client component *)

Section ClientLemmas.

Lemma count_char_app (a : N) (s t : jsstring) :
  count_char a (s +:+ t) = count_char a s + count_char a t.
Proof.
  induction s as [|c s IH]; [done|]. rewrite app_cons. simpl. rewrite IH. lia.
Qed.

Lemma replace_dots_no_dot (s : jsstring) : count_char DOT (Client.replace_dots s) = 0.
Proof.
  induction s as [|c s IH]; [done|]. simpl.
  destruct (N.eqb c DOT) eqn:Hc; [done|]. by rewrite Hc.
Qed.

Lemma length_replace_dots (s : jsstring) :
  slength (Client.replace_dots s) = slength s.
Proof. induction s as [|c s IH]; [done|]. simpl. by rewrite IH. Qed.

Lemma removeFetcher_absent (prev : list jsstring) (id : jsstring) :
  ¬ In id prev → Client.removeFetcher prev id = prev.
Proof.
  induction prev as [|x prev IH]; intros H; [done|].
  simpl. destruct (seqb x id) eqn:E.
  - apply seqb_eq in E. subst. exfalso. apply H. by left.
  - simpl. f_equal. apply IH. intros Hin. apply H. by right.
Qed.

Lemma removeFetcher_In (prev : list jsstring) (id x : jsstring) :
  In x (Client.removeFetcher prev id) ↔ In x prev ∧ x ≠ id.
Proof.
  unfold Client.removeFetcher. rewrite filter_In, negb_true_iff.
  by rewrite seqb_neq.
Qed.

Lemma removeFetcher_length (prev : list jsstring) (id : jsstring) :
  List.NoDup prev → In id prev →
  S (List.length (Client.removeFetcher prev id)) = List.length prev.
Proof.
  induction 1 as [|x prev Hx Hnd IH]; intros Hin; [done|].
  simpl. destruct (seqb x id) eqn:E.
  - apply seqb_eq in E. subst x. simpl.
    by rewrite removeFetcher_absent.
  - apply seqb_neq in E. destruct Hin as [->|Hin]; [done|].
    simpl. by rewrite IH.
Qed.

End ClientLemmas.

(** X16. For a result that came from the handler, the number of
    characters that the component shows is the length of the shown content
    in the beautified, raw and text views; in the structured view it is
    the length of the readable text, not of the structured text shown. *)
Theorem shown_length_of_result `{Unicode}
    (new_URL : Handler.json → option Handler.URL)
    (load : jsstring → document) (beautifyHtml : jsstring → jsstring)
    (null_message : jsstring) (refusal_message : nat → jsstring)
    (request : Handler.js_error + Handler.json)
    (reply : Handler.fetch_reply) (r : Handler.response)
    (result : Client.FetchResult) (viewMode : Client.ViewMode) :
  Session.answer
    (Handler.POST new_URL load beautifyHtml null_message refusal_message request)
    reply = Some r →
  Client.of_body (Handler.body r) = Some result →
  Client.getContentLength (Some result) viewMode
  = slength
      (Client.getDisplayContent (Some result)
         match viewMode with
         | Client.structured => Client.text_view
         | _ => viewMode
         end).
Proof.
  intros Hans Hres.
  destruct (post_cases new_URL load beautifyHtml null_message refusal_message
              request)
    as [[r0 [msg [Hr [Hb Hs]]]]|[v [url [parsed [Hreq [Hv [Hf [Hp [Hproto Hh]]]]]]]]].
  - rewrite Hr in Hans. unfold Session.answer in Hans.
    apply some_eq in Hans. subst r. rewrite Hb in Hres. discriminate.
  - rewrite Hh in Hans. unfold Session.answer in Hans.
    destruct (respond_cases load beautifyHtml refusal_message parsed reply)
      as [[r0 [msg [Hr [Hb Hs]]]]|[code [st [rawText [Hreply Hr]]]]];
      rewrite Hr in Hans; apply some_eq in Hans; subst r.
    + rewrite Hb in Hres. discriminate.
    + cbn [Handler.body Client.of_body] in Hres. apply some_eq in Hres.
      subst result.
      destruct viewMode; reflexivity.
Qed.

Lemma shown_length_of_result_witness :
  Client.getContentLength
    (Some (Client.MkFetchResult "<p>Hi there</p>" "<p>Hi there</p>"
             SNil SNil "http://example.org/" 15 15 0))
    Client.raw
  = slength
      (Client.getDisplayContent
         (Some (Client.MkFetchResult "<p>Hi there</p>" "<p>Hi there</p>"
                  SNil SNil "http://example.org/" 15 15 0))
         Client.raw).
Proof.
  exact (@shown_length_of_result sample_case
           (λ _, Some (Handler.MkURL "http:" "http://example.org/"))
           (λ _, []) (λ s, s) SNil (λ _, SNil)
           (inr (Handler.JObject [ ("url", Handler.JString "http://example.org") ]))
           (Handler.FetchResolved true 200 "OK" (inr "<p>Hi there</p>"))
           (Handler.Response 200
              (Handler.ResultBody "<p>Hi there</p>" "<p>Hi there</p>"
                 SNil SNil "http://example.org/" 15 15 0))
           (Client.MkFetchResult "<p>Hi there</p>" "<p>Hi there</p>"
              SNil SNil "http://example.org/" 15 15 0)
           Client.raw eq_refl eq_refl).
Defined.

(** X17. A download carries the content of the current view, and the name
    of its file has exactly one dot, the one of the extension, whatever
    the host name is; without a result nothing is downloaded. *)
Theorem download_name_one_dot (hostname_of : jsstring → option jsstring)
    (result : option Client.FetchResult) (viewMode : Client.ViewMode) :
  match Client.downloadFile hostname_of result viewMode with
  | None => result = None
  | Some d =>
      is_Some result
      ∧ Client.content d = Client.getDisplayContent result viewMode
      ∧ count_char DOT (Client.filename d) = 1
  end.
Proof.
  destruct result as [r|]; [|reflexivity]. simpl.
  split; [by exists r|]. split; [done|].
  destruct (hostname_of (Client.url r)) as [hostname|];
    rewrite count_char_app, ?replace_dots_no_dot; by destruct viewMode.
Qed.

(** X18. The component sends no request for an input that is blank, a
    no-break space for one, and what it sends is the input without white
    space at its ends; the handler never answers such a request with "URL
    is required". *)
Theorem client_url_is_present (input : jsstring) :
  Client.fetchHtml_request Sample.nbsp = inl "Please enter a URL"
  ∧
  match Client.fetchHtml_request input with
  | inl message => message = "Please enter a URL" ∧ trim input = SNil
  | inr requestBody =>
      requestBody = Handler.JObject [ ("url", Handler.JString (trim input)) ]
      ∧ no_leading_space (trim input) ∧ no_trailing_space (trim input)
      ∧ ∀ (U : Unicode) new_URL load beautifyHtml null_message refusal_message,
          Handler.POST new_URL load beautifyHtml null_message refusal_message
            (inr requestBody)
          ≠ Handler.Return
              (Handler.Response 400 (Handler.ErrorBody "URL is required"))
  end.
Proof.
  split; [reflexivity|].
  unfold Client.fetchHtml_request.
  destruct (truthy (trim input)) eqn:Ht; simpl.
  - split; [done|].
    split; [apply trimEnd_no_leading, trimStart_no_leading|].
    split; [apply trimEnd_no_trailing|].
    intros U new_URL load beautifyHtml null_message refusal_message.
    unfold Handler.POST. simpl. rewrite Ht. simpl.
    destruct (new_URL _) as [parsed|]; [|discriminate].
    destruct (negb _); discriminate.
  - split; [done|]. by apply truthy_false.
Qed.

Lemma client_url_is_present_witness :
  @Handler.POST sample_case (λ _, None) (λ _, []) (λ s, s) SNil (λ _, SNil)
    (inr (Handler.JObject [ ("url", Handler.JString "example.org") ]))
  ≠ Handler.Return (Handler.Response 400 (Handler.ErrorBody "URL is required")).
Proof.
  destruct (client_url_is_present "  example.org ") as [_ H].
  assert (Client.fetchHtml_request "  example.org "
          = inr (Handler.JObject [ ("url", Handler.JString "example.org") ]))
    as E by reflexivity.
  rewrite E in H. destruct H as [_ [_ [_ H]]]. apply H.
Defined.

(** X19. Removing a fetcher whose id is in the list and occurs once in it
    shortens the list by one and keeps the others in their order; as the
    Remove button is offered only with more than one fetcher, the list
    does not become empty. *)
Theorem removeFetcher_keeps_one (prev : list jsstring) (id : jsstring) :
  List.NoDup prev → In id prev → Client.canRemove prev = true →
  S (List.length (Client.removeFetcher prev id)) = List.length prev
  ∧ Client.removeFetcher prev id ≠ []
  ∧ ¬ In id (Client.removeFetcher prev id)
  ∧ (∀ other, other ≠ id → In other prev →
              In other (Client.removeFetcher prev id))
  ∧ List.NoDup (Client.removeFetcher prev id).
Proof.
  intros Hnd Hin Hcan.
  pose proof (removeFetcher_length prev id Hnd Hin) as Hlen.
  split; [done|]. split; [|split; [|split]].
  - unfold Client.canRemove in Hcan. apply Nat.ltb_lt in Hcan.
    intros Hnil. rewrite Hnil in Hlen. simpl in Hlen. lia.
  - rewrite removeFetcher_In. tauto.
  - intros other Hne Hother. by apply removeFetcher_In.
  - by apply List.NoDup_filter.
Qed.

Lemma removeFetcher_keeps_one_witness :
  S (List.length (Client.removeFetcher ["a"; "b"; "c"] "b"))
  = List.length ["a"; "b"; "c"].
Proof.
  apply (removeFetcher_keeps_one ["a"; "b"; "c"] "b"); [|simpl; tauto|reflexivity].
  repeat constructor; simpl; intros H;
    repeat (destruct H as [H|H]; [discriminate|]); done.
Defined.

(** X20. Adding a fetcher with a new id and removing it again gives the
    list back, and removing an id that is not in the list changes
    nothing. *)
Theorem addFetcher_removeFetcher (prev : list jsstring) (id : jsstring) :
  ¬ In id prev →
  Client.removeFetcher (Client.addFetcher prev id) id = prev
  ∧ Client.removeFetcher prev id = prev.
Proof.
  intros Hnew. split; [|by apply removeFetcher_absent].
  unfold Client.addFetcher, Client.removeFetcher.
  rewrite List.filter_app. simpl. rewrite seqb_refl. simpl.
  rewrite app_nil_r. by apply removeFetcher_absent.
Qed.

Lemma addFetcher_removeFetcher_witness :
  Client.removeFetcher (Client.addFetcher ["a"; "b"] "c") "c" = ["a"; "b"].
Proof.
  apply (addFetcher_removeFetcher ["a"; "b"] "c").
  simpl. intros H. repeat (destruct H as [H|H]; [discriminate|]). done.
Defined.
